(** * Sparkie: post-retrieval decision engine and citation grading

    A shallow embedding of the algorithmic core of the Sparkie AS3000
    assistant:

    - [src/evaluation/eval_metrics_v2.py]: [_extract_clause_references],
      [_normalize_clause], [_compute_clause_match_score],
      [_grade_citation_accuracy] and the class counters and the
      normative-coverage, conditional-risk and multimodal-starvation
      metrics of [_evaluate_kg_metrics];
    - [src/app/sparkie_engine.py]: [enrich_electrician_question],
      [_kg_rerank_candidates], [_apply_quota_selection] and the stage of
      [_get_unified_view_content] that runs the two.

    Python strings are lists of characters; the characters range over the
    code points 0..255, on which Python's [\d] is exactly ['0'..'9'].
    The float literals of the grading code (1.0, 0.75, 0.6, 0.5, 0.3, 0.0)
    are only ever compared and returned, never added, so they are modelled
    by the rationals they denote.  The scores of the reranker are added and
    sorted, so that code is stated over an arbitrary float type with its
    addition and its [<]; the examples run it on the binary64 floats.
    What a call of the reranker leaves alone is stated on a memory of
    objects and lists. *)

From Stdlib Require Import String.
From Stdlib Require Import List Ascii Bool Arith ZArith QArith Lia.
From Stdlib Require Import Permutation Sorted.
From Stdlib Require PrimFloat FloatAxioms SpecFloat FloatOps.
Import ListNotations.

Set Implicit Arguments.

(** ** Python strings *)

Module PyStr.

Definition str := list ascii.

(** String literals of the source. *)
Definition lit (x : String.string) : str := String.list_ascii_of_string x.
Arguments lit x%_string.

Definition chr_eqb (a b : ascii) : bool := Ascii.eqb a b.

Fixpoint str_eqb (a b : str) : bool :=
  match a, b with
  | [], [] => true
  | x :: a', y :: b' => chr_eqb x y && str_eqb a' b'
  | _, _ => false
  end.

Definition is_dot (c : ascii) : bool := chr_eqb c "."%char.

(** [\d] on code points below 256. *)
Definition is_digit (c : ascii) : bool :=
  (48 <=? nat_of_ascii c) && (nat_of_ascii c <=? 57).

(** [str.isspace] on code points below 256: TAB, LF, VT, FF, CR, the four
    separators 0x1c..0x1f, SPACE, NEL (0x85) and NBSP (0xa0). *)
Definition is_space (c : ascii) : bool :=
  let n := nat_of_ascii c in
  ((9 <=? n) && (n <=? 13)) || ((28 <=? n) && (n <=? 32))
  || (n =? 133) || (n =? 160).

(** [s.lstrip(chars)], with the stripped set given as a predicate. *)
Fixpoint lstrip (p : ascii -> bool) (l : str) : str :=
  match l with
  | [] => []
  | c :: r => if p c then lstrip p r else l
  end.

Definition rstrip (p : ascii -> bool) (l : str) : str :=
  rev (lstrip p (rev l)).

(** [s.strip()] is [strip is_space], [s.strip('.')] is [strip is_dot]. *)
Definition strip (p : ascii -> bool) (l : str) : str :=
  rstrip p (lstrip p l).

(** [s.startswith(prefix)]. *)
Fixpoint startswith (l prefix : str) {struct prefix} : bool :=
  match prefix, l with
  | [], _ => true
  | p :: prefix', c :: l' => chr_eqb c p && startswith l' prefix'
  | _ :: _, [] => false
  end.

(** [s.split(sep)] for a one-character separator: never empty, the empty
    string splits into one empty field. *)
Fixpoint split (sep : ascii) (l : str) : list str :=
  match l with
  | [] => [[]]
  | c :: r =>
      if chr_eqb c sep then [] :: split sep r
      else match split sep r with
           | seg :: segs => (c :: seg) :: segs
           | [] => [[c]]
           end
  end.

(** [sep.join(fields)]. *)
Fixpoint join (sep : ascii) (fields : list str) : str :=
  match fields with
  | [] => []
  | [f] => f
  | f :: rest => f ++ sep :: join sep rest
  end.

End PyStr.

Import PyStr.

(** ** ClauseNormalizer: [_normalize_clause] *)

(** [re.sub(r'[^\d.]', '', clause)]. *)
Definition keep_digits_dots (l : str) : str :=
  filter (fun c => is_digit c || is_dot c) l.

(** [re.sub(r'\.{2,}', '.', clause)]: of every maximal run of dots only the
    last one is kept. *)
Fixpoint collapse_dots (l : str) : str :=
  match l with
  | [] => []
  | c :: r =>
      if is_dot c && match r with d :: _ => is_dot d | [] => false end
      then collapse_dots r
      else c :: collapse_dots r
  end.

(** [re.match(r'^\d+(\.\d+)*$', clause)] as the automaton of the pattern.
    [after_digit] tells whether the previous character was a digit; [$]
    also matches just before a final line feed. *)
Fixpoint match_clause_re (after_digit : bool) (l : str) : bool :=
  match l with
  | [] => after_digit
  | c :: r =>
      if is_digit c then match_clause_re true r
      else if is_dot c then after_digit && match_clause_re false r
      else if chr_eqb c "010"%char then
        after_digit && match r with [] => true | _ :: _ => false end
      else false
  end.

(** The four rewriting steps of the normalizer, before validation. *)
Definition clean_clause (clause : str) : str :=
  strip is_dot (collapse_dots (keep_digits_dots (strip is_space clause))).

Definition _normalize_clause (clause : str) : option str :=
  match clause with
  | [] => None
  | _ :: _ =>
      let clause := strip is_space clause in
      let clause := keep_digits_dots clause in
      let clause := collapse_dots clause in
      let clause := strip is_dot clause in
      if match_clause_re false clause then Some clause else None
  end.

(** The language of [^\d+(\.\d+)*$]: one or more non-empty digit strings
    separated by single dots. *)
Inductive digits1 : str -> Prop :=
| digits1_one c : is_digit c = true -> digits1 [c]
| digits1_cons c l : is_digit c = true -> digits1 l -> digits1 (c :: l).

Inductive clause_id : str -> Prop :=
| clause_id_seg d : digits1 d -> clause_id d
| clause_id_dot d r :
    digits1 d -> clause_id r -> clause_id (d ++ "."%char :: r).

(** The characters that survive [keep_digits_dots]. *)
Definition digit_or_dot (c : ascii) : Prop :=
  is_digit c || is_dot c = true.

(** ** ClauseMatcher: [_compute_clause_match_score] *)

Local Open Scope Q_scope.

(** The [if depth == 1 / elif depth == 2 / elif depth >= 3] ladder; [None]
    is the fall-through of a ladder none of whose tests holds. *)
Definition depth_ladder (depth : nat) : option Q :=
  if (depth =? 1)%nat then Some 0.5
  else if (depth =? 2)%nat then Some 0.6
  else if (3 <=? depth)%nat then Some 0.75
  else None.

Definition _compute_clause_match_score (cited expected : str) : Q :=
  if str_eqb cited expected then 1.0
  else
    let parent :=
      if startswith expected (cited ++ lit ".")
      then depth_ladder (length (split "." cited))
      else None in
    match parent with
    | Some score => score
    | None =>
        let child :=
          if startswith cited (expected ++ lit ".")
          then depth_ladder (length (split "." expected))
          else None in
        match child with
        | Some score => score
        | None =>
            let cited_parts := split "." cited in
            let expected_parts := split "." expected in
            if str_eqb (nth 0 cited_parts []) (nth 0 expected_parts [])
            then 0.3
            else 0.0
        end
    end.

(** The matcher as the specification words it: on the dotted segments. *)
Fixpoint strict_prefix (a b : list str) : bool :=
  match a, b with
  | [], _ :: _ => true
  | x :: a', y :: b' => str_eqb x y && strict_prefix a' b'
  | _, _ => false
  end.

Definition depth (clause : str) : nat := length (split "." clause).

Definition depth_score (d : nat) : Q :=
  match d with
  | 0%nat | 1%nat => 0.5
  | 2%nat => 0.6
  | _ => 0.75
  end.

Definition ClauseMatcher (cited expected : str) : Q :=
  if str_eqb cited expected then 1.0
  else if strict_prefix (split "." cited) (split "." expected)
  then depth_score (depth cited)
  else if strict_prefix (split "." expected) (split "." cited)
  then depth_score (depth expected)
  else if str_eqb (hd [] (split "." cited)) (hd [] (split "." expected))
  then 0.3
  else 0.0.

(** ** CitationGrader: [_grade_citation_accuracy] *)

(** [a < b] on the scores; [b > a] is the same test. *)
Definition Qltb (a b : Q) : bool :=
  match a ?= b with Lt => true | _ => false end.

(** The diagnostics string, by the five formats the code builds. *)
Inductive details : Type :=
| NoCitationsFound
| NoExpectedClause
| CouldNotParseExpected (expected_clause : str)
| CitedNotNormalized
| Graded (expected_set cited_set : list str)
         (best_match_pairs : list (str * str * Q)) (score : Q).

Record grading : Type := {
  citation_accuracy : Q;
  correct_clause_ref : bool;
  citation_details : details
}.

(** [[x for x in xs if x]] on results of the normalizer: [None] and the
    empty string are falsy. *)
Definition truthy (xs : list (option str)) : list str :=
  flat_map (fun x => match x with Some (c :: r) => [c :: r] | _ => [] end) xs.

Definition parse_expected (expected_clause : str) : list str :=
  let expected_raw := map (strip is_space) (split "," expected_clause) in
  let expected_set := map _normalize_clause expected_raw in
  truthy expected_set.

Definition normalize_cited (cited_clauses : list str) : list str :=
  truthy (map _normalize_clause cited_clauses).

(** The inner loop: the best score of one cited clause and the expected
    clause that gave it, starting from [(0.0, None)]. *)
Definition best_match (cited : str) (expected_set : list str)
  : Q * option str :=
  fold_left
    (fun (best : Q * option str) expected =>
       let score := _compute_clause_match_score cited expected in
       if Qltb (fst best) score then (score, Some expected) else best)
    expected_set (0.0, None).

(** [max(xs)] on the non-empty list [x :: xs]. *)
Definition py_max (x : Q) (xs : list Q) : Q :=
  fold_left (fun m y => if Qltb m y then y else m) xs x.

Definition _grade_citation_accuracy
    (cited_clauses : list str) (expected_clause : option str) : grading :=
  match cited_clauses with
  | [] =>
      {| citation_accuracy := 0.0; correct_clause_ref := false;
         citation_details := NoCitationsFound |}
  | _ :: _ =>
      match expected_clause with
      | None | Some [] =>
          {| citation_accuracy := 0.5; correct_clause_ref := false;
             citation_details := NoExpectedClause |}
      | Some expected_clause =>
          match parse_expected expected_clause with
          | [] =>
              {| citation_accuracy := 0.5; correct_clause_ref := false;
                 citation_details := CouldNotParseExpected expected_clause |}
          | (_ :: _) as expected_set =>
              match normalize_cited cited_clauses with
              | [] =>
                  {| citation_accuracy := 0.0; correct_clause_ref := false;
                     citation_details := CitedNotNormalized |}
              | (_ :: _) as cited_set =>
                  let results :=
                    map (fun cited => (cited, best_match cited expected_set))
                        cited_set in
                  let match_scores := map (fun r => fst (snd r)) results in
                  let best_match_pairs :=
                    flat_map
                      (fun r : str * (Q * option str) =>
                         match snd (snd r) with
                         | Some (c :: e) => [(fst r, c :: e, fst (snd r))]
                         | _ => []
                         end)
                      results in
                  let citation_accuracy :=
                    match match_scores with
                    | [] => 0.0
                    | s :: ss => py_max s ss
                    end in
                  {| citation_accuracy := citation_accuracy;
                     correct_clause_ref := Qle_bool 0.75 citation_accuracy;
                     citation_details :=
                       Graded expected_set cited_set best_match_pairs
                              citation_accuracy |}
              end
          end
      end
  end.

(** The per-citation best scores that the grader aggregates. *)
Definition match_scores (cited_set expected_set : list str) : list Q :=
  map (fun cited => fst (best_match cited expected_set)) cited_set.

(** [m] is the maximum of the list [l]. *)
Definition is_maximum (m : Q) (l : list Q) : Prop :=
  In m l /\ forall x, In x l -> x <= m.

(** ** CoverageMetrics: the conditional-risk metric of
       [_evaluate_kg_metrics] *)

(** A retrieved-context dictionary, by the keys the metric reads; [None] is
    an absent key. *)
Record item : Type := {
  content_id : option str;
  kg_class : option str
}.

(** [item.get('kg_class', 'UNKNOWN')]. *)
Definition item_kg_class (it : item) : str :=
  match kg_class it with Some c => c | None => lit "UNKNOWN" end.

(** [item.get('content_id') == content_id]. *)
Definition has_content_id (cid : str) (it : item) : bool :=
  match content_id it with Some c => str_eqb c cid | None => false end.

(** A dictionary of counters, keys in insertion order. *)
Definition counter := list (str * Z).

Fixpoint counter_get (d : counter) (k : str) (default : Z) : Z :=
  match d with
  | [] => default
  | (k', v) :: d' => if str_eqb k' k then v else counter_get d' k default
  end.

Fixpoint counter_set (d : counter) (k : str) (v : Z) : counter :=
  match d with
  | [] => [(k, v)]
  | (k', v') :: d' =>
      if str_eqb k' k then (k', v) :: d' else (k', v') :: counter_set d' k v
  end.

(** [d[k] = d.get(k, 0) + 1]. *)
Definition counter_incr (d : counter) (k : str) : counter :=
  counter_set d k (counter_get d k 0 + 1)%Z.

(** [sum(d.values())]. *)
Definition counter_total (d : counter) : Z :=
  fold_left (fun acc kv => (acc + snd kv)%Z) d 0%Z.

Definition retrieved_kg_classes (retrieved_context : list item) : counter :=
  fold_left (fun d it => counter_incr d (item_kg_class it))
            retrieved_context [].

(** For each cited id, the first retrieved item with that id is counted
    under its class ([break] after the first match). *)
Definition cited_kg_classes (cited_content_ids : list str)
    (retrieved_context : list item) : counter :=
  fold_left
    (fun d cid =>
       match find (has_content_id cid) retrieved_context with
       | Some it => counter_incr d (item_kg_class it)
       | None => d
       end)
    cited_content_ids [].

(** How often the class [k] occurs among [ks]. *)
Definition occurrences (k : str) (ks : list str) : Z :=
  Z.of_nat (length (filter (fun k' => str_eqb k' k) ks)).

(** The classes under which the cited ids are counted. *)
Definition cited_classes (cited_content_ids : list str)
    (retrieved_context : list item) : list str :=
  flat_map
    (fun cid =>
       match find (has_content_id cid) retrieved_context with
       | Some it => [item_kg_class it]
       | None => []
       end)
    cited_content_ids.

Definition conditional_language_patterns : list str :=
  [ lit "\bwhere\b"; lit "\bwhen\b"; lit "\bif\b"; lit "\bunless\b";
    lit "\bonly if\b"; lit "\bin cases where\b"; lit "\bprovided that\b";
    lit "\bsubject to\b"; lit "\bdepending on\b"; lit "\bmay\b";
    lit "\bcan\b"; lit "\bshall.*where\b"; lit "\bmust.*when\b";
    lit "\brequired.*if\b" ].

Section CoverageDefs.

(** [re.search(pattern, text, re.IGNORECASE) is not None], the regular
    expression engine of the host. *)
Variable re_search_ignorecase : str -> str -> bool.

(** [_extract_cited_content_ids], the citation extractor; the metric only
    consumes its result. *)
Variable _extract_cited_content_ids : str -> list item -> list str.

Definition has_conditional_language (answer : str) : bool :=
  existsb (fun pattern => re_search_ignorecase pattern answer)
          conditional_language_patterns.

(** METRIC 3 of [_evaluate_kg_metrics]: [results['kg_conditional_risk']]. *)
Definition kg_conditional_risk (answer : str) (retrieved_context : list item)
  : Q :=
  let retrieved := retrieved_kg_classes retrieved_context in
  let cited_content_ids :=
    _extract_cited_content_ids answer retrieved_context in
  let cited := cited_kg_classes cited_content_ids retrieved_context in
  let total_cited := counter_total cited in
  let b_chunks_cited := counter_get cited (lit "B") 0 in
  let b_chunks_retrieved := counter_get retrieved (lit "B") 0 in
  if (0 <? b_chunks_cited)%Z then
    if has_conditional_language answer then 1.0 else 0.0
  else if (0 <? b_chunks_retrieved)%Z && (0 <? total_cited)%Z then
    if has_conditional_language answer then 1.0 else 0.5
  else 1.0.

(** A class-B item is cited: some cited id resolves to a retrieved item of
    class B. *)
Definition b_item_cited (answer : str) (retrieved_context : list item)
  : Prop :=
  exists cid it,
    In cid (_extract_cited_content_ids answer retrieved_context) /\
    find (has_content_id cid) retrieved_context = Some it /\
    item_kg_class it = lit "B".

Definition b_item_retrieved (retrieved_context : list item) : Prop :=
  exists it, In it retrieved_context /\ item_kg_class it = lit "B".

End CoverageDefs.

(** ** The engine: [sparkie_engine.py] *)

(** What the engine takes from its host: the floats with the value of a
    decimal literal, [+] and [<], and the values of the attributes that the
    code copies without looking at them. *)
Class Host : Type := {
  float : Type;
  float_of_literal : Q -> float;
  fadd : float -> float -> float;
  flt : float -> float -> bool;
  pyobject : Type
}.

Definition KG_FINAL_K : nat := 20.
Definition MIN_NORMATIVE_TEXT : nat := 4.
Definition MAX_NON_NORMATIVE_TEXT : nat := 2.
Definition MIN_UNKNOWN_NONTEXT : nat := 2.

(** [enumerate(l)]. *)
Fixpoint enumerate_from (A : Type) (i : nat) (l : list A) : list (nat * A) :=
  match l with
  | [] => []
  | x :: r => (i, x) :: enumerate_from (S i) r
  end.

Definition enumerate (A : Type) (l : list A) : list (nat * A) :=
  enumerate_from 0 l.

Section EngineDefs.

Context {H : Host}.

Definition KG_BOOST_A : float := float_of_literal 0.15.
Definition KG_BOOST_B : float := float_of_literal 0.05.
Definition KG_PENALTY_C : float := float_of_literal (-0.10).
Definition KG_NEUTRAL_UNKNOWN : float := float_of_literal 0.0.

(** [l.sort(key=..., reverse=True)]: the stable sort into descending key
    order, which compares keys with [<] only.  Elements are inserted from
    the right; an element passes exactly those with a strictly larger key. *)
Fixpoint insert_desc (A : Type) (key : A -> float) (x : A) (l : list A)
  : list A :=
  match l with
  | [] => [x]
  | y :: r => if flt (key x) (key y) then y :: insert_desc key x r else x :: l
  end.

Fixpoint sort_desc (A : Type) (key : A -> float) (l : list A) : list A :=
  match l with
  | [] => []
  | x :: r => insert_desc key x (sort_desc key r)
  end.

(** The pass-through attributes: TEXT_CONTENT, VISUAL_URL, SEARCH_ID, LABEL,
    PAGE_NUMBER, SECTION_NAME, TABLE_NUMBER, TABLE_HTML, REQUIREMENT_COUNT,
    CONDITION_COUNT, NORMATIVE_CONFIDENCE_MAX, CONDITION_CONFIDENCE_MAX. *)
Definition passthrough : Type := list pyobject.

(** A candidate as [_get_unified_view_content] builds it: every attribute
    is set, so no [getattr] default is ever taken. *)
Record candidate : Type := {
  c_CONTENT_ID : str;
  c_CONTENT_TYPE : str;
  c_SIMILARITY : float;
  c_RANK : Z;
  c_KG_CLASS : str;
  c_passthrough : passthrough
}.

(** The object that the reranker creates for a candidate. *)
Record reranked : Type := {
  CONTENT_ID : str;
  CONTENT_TYPE : str;
  SIMILARITY : float;
  RANK : Z;
  KG_CLASS : str;
  RERANK_SCORE : float;
  KG_BOOST : float;
  attributes : passthrough
}.

Definition set_RANK (o : reranked) (rank : Z) : reranked :=
  {| CONTENT_ID := CONTENT_ID o; CONTENT_TYPE := CONTENT_TYPE o;
     SIMILARITY := SIMILARITY o; RANK := rank; KG_CLASS := KG_CLASS o;
     RERANK_SCORE := RERANK_SCORE o; KG_BOOST := KG_BOOST o;
     attributes := attributes o |}.

(** *** Reranker: [_kg_rerank_candidates] *)

Definition kg_boost_of (content_type kg_class : str) : float :=
  if str_eqb content_type (lit "text_chunk") then
    if str_eqb kg_class (lit "A") then KG_BOOST_A
    else if str_eqb kg_class (lit "B") then KG_BOOST_B
    else if str_eqb kg_class (lit "C") then KG_PENALTY_C
    else KG_NEUTRAL_UNKNOWN
  else KG_NEUTRAL_UNKNOWN.

(** The body of the loop over the candidates. *)
Definition reranked_obj (c : candidate) : reranked :=
  let content_type := c_CONTENT_TYPE c in
  let kg_class := c_KG_CLASS c in
  let similarity := c_SIMILARITY c in
  let kg_boost := kg_boost_of content_type kg_class in
  let rerank_score := fadd similarity kg_boost in
  {| CONTENT_ID := c_CONTENT_ID c; CONTENT_TYPE := content_type;
     SIMILARITY := similarity; RANK := c_RANK c; KG_CLASS := kg_class;
     RERANK_SCORE := rerank_score; KG_BOOST := kg_boost;
     attributes := c_passthrough c |}.

(** [for i, item in enumerate(reranked): item.RANK = i + 1] on objects that
    the function has just created. *)
Definition renumber (l : list reranked) : list reranked :=
  map (fun p => set_RANK (snd p) (Z.of_nat (fst p) + 1)) (enumerate l).

Definition _kg_rerank_candidates (candidates : list candidate)
  : list reranked :=
  match candidates with
  | [] => []
  | _ :: _ =>
      let reranked := map reranked_obj candidates in
      let reranked := sort_desc RERANK_SCORE reranked in
      renumber reranked
  end.

(** *** QuotaSelector: [_apply_quota_selection] *)

(** The selector writes [RANK] into the objects of its argument, so its
    lists hold references and the objects live in a heap. *)
Definition ref : Type := nat.
Definition heap : Type := ref -> reranked.

Definition heap_set (h : heap) (r : ref) (o : reranked) : heap :=
  fun r' => if Nat.eqb r' r then o else h r'.

Inductive bucket : Type := NormativeText | NonNormativeText | NonText.

(** The [if] ladder of the categorizing loop. *)
Definition bucket_of (o : reranked) : bucket :=
  if str_eqb (CONTENT_TYPE o) (lit "text_chunk") then
    if str_eqb (KG_CLASS o) (lit "A") || str_eqb (KG_CLASS o) (lit "B")
    then NormativeText
    else if str_eqb (KG_CLASS o) (lit "C") then NonNormativeText
    else NormativeText
  else NonText.

(** The categorizing loop: three lists, each in the order of the input. *)
Fixpoint categorize (h : heap) (l : list ref)
  : list ref * list ref * list ref :=
  match l with
  | [] => ([], [], [])
  | c :: r =>
      let '(normative_text, non_normative_text, unknown_nontext) :=
        categorize h r in
      match bucket_of (h c) with
      | NormativeText => (c :: normative_text, non_normative_text,
                          unknown_nontext)
      | NonNormativeText => (normative_text, c :: non_normative_text,
                             unknown_nontext)
      | NonText => (normative_text, non_normative_text,
                    c :: unknown_nontext)
      end
  end.

(** The list chosen by the three steps and the final sort, before the
    ranks are written. *)
Definition quota_selection (h : heap) (reranked_candidates : list ref)
  : list ref :=
  let key := fun r => RERANK_SCORE (h r) in
  let '(normative_text, non_normative_text, unknown_nontext) :=
    categorize h reranked_candidates in
  let normative_to_add :=
    Nat.min MIN_NORMATIVE_TEXT (length normative_text) in
  let final_selection := firstn normative_to_add normative_text in
  let unknown_to_add :=
    Nat.min MIN_UNKNOWN_NONTEXT (length unknown_nontext) in
  let final_selection :=
    final_selection ++ firstn unknown_to_add unknown_nontext in
  let remaining_slots :=
    (Z.of_nat KG_FINAL_K - Z.of_nat (length final_selection))%Z in
  let final_selection :=
    if (0 <? remaining_slots)%Z then
      let remaining_candidates :=
        skipn normative_to_add normative_text ++
        skipn unknown_to_add unknown_nontext ++
        firstn MAX_NON_NORMATIVE_TEXT non_normative_text in
      let remaining_candidates := sort_desc key remaining_candidates in
      final_selection ++
        firstn (Z.to_nat remaining_slots) remaining_candidates
    else final_selection in
  sort_desc key final_selection.

(** [for i, item in enumerate(final_selection): item.RANK = i + 1]. *)
Definition write_ranks (h : heap) (final_selection : list ref) : heap :=
  fold_left
    (fun h p => heap_set h (snd p) (set_RANK (h (snd p)) (Z.of_nat (fst p) + 1)))
    (enumerate final_selection) h.

Definition _apply_quota_selection (h : heap) (reranked_candidates : list ref)
  : list ref * heap :=
  match reranked_candidates with
  | [] => ([], h)
  | _ :: _ =>
      let final_selection := quota_selection h reranked_candidates in
      (final_selection, write_ranks h final_selection)
  end.

(** How many references of [l] point to an object of bucket [b]. *)
Definition in_bucket (h : heap) (b : bucket) (r : ref) : bool :=
  match bucket_of (h r), b with
  | NormativeText, NormativeText => true
  | NonNormativeText, NonNormativeText => true
  | NonText, NonText => true
  | _, _ => false
  end.

Definition count (p : ref -> bool) (l : list ref) : nat :=
  length (filter p l).

(** Two objects tie when neither score is below the other. *)
Definition tied (a b : reranked) : bool :=
  negb (flt (RERANK_SCORE a) (RERANK_SCORE b)) &&
  negb (flt (RERANK_SCORE b) (RERANK_SCORE a)).

(** The selection before its final sort, on the buckets as filters. *)
Definition quota_steps (h : heap) (l : list ref) : list ref :=
  let normative_text := filter (in_bucket h NormativeText) l in
  let non_normative_text := filter (in_bucket h NonNormativeText) l in
  let unknown_nontext := filter (in_bucket h NonText) l in
  let a := Nat.min MIN_NORMATIVE_TEXT (length normative_text) in
  let b := Nat.min MIN_UNKNOWN_NONTEXT (length unknown_nontext) in
  let quota := firstn a normative_text ++ firstn b unknown_nontext in
  let remaining_slots := (Z.of_nat KG_FINAL_K - Z.of_nat (length quota))%Z in
  if (0 <? remaining_slots)%Z then
    quota ++
    firstn (Z.to_nat remaining_slots)
      (sort_desc (fun r => RERANK_SCORE (h r))
         (skipn a normative_text ++ skipn b unknown_nontext ++
          firstn MAX_NON_NORMATIVE_TEXT non_normative_text))
  else quota.

(** An object without its rank. *)
Definition unranked (o : reranked) : reranked := set_RANK o 0.

End EngineDefs.

(** The binary64 floats of Python.  An integer below 2^53 is a float,
    exactly; a decimal literal [n / 10^k] is the correctly rounded quotient
    of two such integers, which is the float that Python reads it as. *)
Fixpoint binary64_of_pos (p : positive) : PrimFloat.float :=
  match p with
  | xH => PrimFloat.one
  | xO p => PrimFloat.mul PrimFloat.two (binary64_of_pos p)
  | xI p =>
      PrimFloat.add (PrimFloat.mul PrimFloat.two (binary64_of_pos p))
                    PrimFloat.one
  end.

Definition binary64_of_Z (z : Z) : PrimFloat.float :=
  match z with
  | Z0 => PrimFloat.zero
  | Zpos p => binary64_of_pos p
  | Zneg p => PrimFloat.opp (binary64_of_pos p)
  end.

Definition binary64_of_literal (q : Q) : PrimFloat.float :=
  PrimFloat.div (binary64_of_Z (Qnum q)) (binary64_of_pos (Qden q)).

Definition FloatHost : Host := {|
  float := PrimFloat.float;
  float_of_literal := binary64_of_literal;
  fadd := PrimFloat.add;
  flt := PrimFloat.ltb;
  pyobject := unit
|}.

(** ** Example inputs *)

(** The two candidates of the specification's reranking example:
    CONTENT_ID, CONTENT_TYPE, SIMILARITY, RANK, KG_CLASS. *)
Definition example_candidates : list (@candidate FloatHost) :=
  [ @Build_candidate FloatHost (lit "TEXT_a") (lit "text_chunk")
                     (binary64_of_literal 0.5) 1%Z (lit "A") [];
    @Build_candidate FloatHost (lit "TEXT_c") (lit "text_chunk")
                     (binary64_of_literal 0.5) 2%Z (lit "C") [] ].

(** A heap of thirty reranked objects: class-C texts at 0..4, class-A texts
    at 5..11, tables from 12 on, the score growing with the reference. *)
Definition example_heap : @heap FloatHost :=
  fun r =>
    let score := binary64_of_Z (Z.of_nat r) in
    let obj (content_type kg_class : str) : @reranked FloatHost :=
      @Build_reranked FloatHost (lit "X") content_type score 0%Z kg_class
                      score (binary64_of_literal 0.0) [] in
    if (r <? 5)%nat then obj (lit "text_chunk") (lit "C")
    else if (r <? 12)%nat then obj (lit "text_chunk") (lit "A")
    else obj (lit "structured_table") (lit "UNKNOWN").

(** One retrieved class-B item. *)
Definition example_context : list item :=
  [ {| content_id := Some (lit "TEXT_1"); kg_class := Some (lit "B") |} ].

(** ** Notions for the further properties *)

(** The string holds a digit. *)
Definition has_digit (l : str) : bool := existsb is_digit l.

(** The digits of a string, in order. *)
Definition digits_of (l : str) : str := filter is_digit l.

Definition hd_dot (l : str) : bool :=
  match l with d :: _ => is_dot d | [] => false end.

(** No dot is followed by a dot. *)
Fixpoint no_adjacent_dots (l : str) : bool :=
  match l with
  | [] => true
  | c :: r => negb (is_dot c && hd_dot r) && no_adjacent_dots r
  end.

(** No expected clause to compare with: no string, or a string none of
    whose comma-separated parts normalizes. *)
Definition no_expected (expected_clause : option str) : Prop :=
  match expected_clause with
  | None => True
  | Some e => parse_expected e = []
  end.

(** The six values of the matcher. *)
Definition score_levels : list Q := [1.0; 0.75; 0.6; 0.5; 0.3; 0.0].

(** ** CoverageMetrics: the other discrete metrics of
       [_evaluate_kg_metrics] *)

(** A retrieved-context dictionary with its ['content_type'] key. *)
Record chunk : Type := {
  chunk_item : item;
  content_type : option str
}.

(** [item.get('content_type', 'unknown')]. *)
Definition chunk_content_type (c : chunk) : str :=
  match content_type c with Some t => t | None => lit "unknown" end.

Definition retrieved_content_types (retrieved_context : list chunk)
  : counter :=
  fold_left (fun d c => counter_incr d (chunk_content_type c))
            retrieved_context [].

(** Truthiness of an [Optional[bool]]. *)
Definition is_true (b : option bool) : bool :=
  match b with Some true => true | _ => false end.

Definition nonempty (A : Type) (l : list A) : bool :=
  match l with [] => false | _ :: _ => true end.

Section CoverageDefsMore.

Variable _extract_cited_content_ids : str -> list item -> list str.

(** [re.findall(pattern, text)]. *)
Variable re_findall : str -> str -> list str.

(** METRIC 1: [results['kg_normative_coverage']]. *)
Definition kg_normative_coverage (answer : str)
    (retrieved_context : list item) : Q :=
  let retrieved := retrieved_kg_classes retrieved_context in
  let cited :=
    cited_kg_classes (_extract_cited_content_ids answer retrieved_context)
                     retrieved_context in
  let total_cited := counter_total cited in
  let has_normative_retrieved :=
    (0 <? counter_get retrieved (lit "A") 0 +
          counter_get retrieved (lit "B") 0)%Z in
  let has_normative_cited :=
    if (0 <? total_cited)%Z
    then Some (0 <? counter_get cited (lit "A") 0 +
                    counter_get cited (lit "B") 0)%Z
    else None in
  if is_true has_normative_cited then 1.0
  else if has_normative_retrieved then 0.5
  else 0.0.

(** METRIC 4: [results['kg_multimodal_starvation']]. *)
Definition kg_multimodal_starvation (answer : str)
    (retrieved_context : list chunk)
    (golden_has_table golden_has_diagram : option bool) : Q :=
  let types := retrieved_content_types retrieved_context in
  let has_table_retrieved :=
    (0 <? counter_get types (lit "structured_table") 0)%Z in
  let has_visual_retrieved :=
    (0 <? counter_get types (lit "visual_content") 0)%Z in
  if is_true golden_has_table || is_true golden_has_diagram then
    if is_true golden_has_table && negb has_table_retrieved then 0.0
    else if is_true golden_has_diagram && negb has_visual_retrieved then 0.0
    else 1.0
  else
    let table_mentions :=
      re_findall (lit "[Tt]able\s+\d+(?:\.\d+)?") answer in
    let figure_mentions :=
      re_findall (lit "[Ff]igure\s+\d+(?:\.\d+)?") answer in
    if nonempty table_mentions && negb has_table_retrieved then 0.5
    else if nonempty figure_mentions && negb has_visual_retrieved then 0.5
    else 1.0.

(** A cited id resolves to a retrieved item of class A or B. *)
Definition normative_item_cited (answer : str)
    (retrieved_context : list item) : Prop :=
  exists cid it,
    In cid (_extract_cited_content_ids answer retrieved_context) /\
    find (has_content_id cid) retrieved_context = Some it /\
    (item_kg_class it = lit "A" \/ item_kg_class it = lit "B").

(** A cited id resolves to a retrieved item at all. *)
Definition some_item_cited (answer : str)
    (retrieved_context : list item) : Prop :=
  exists cid it,
    In cid (_extract_cited_content_ids answer retrieved_context) /\
    find (has_content_id cid) retrieved_context = Some it.

End CoverageDefsMore.

Definition normative_item_retrieved (retrieved_context : list item) : Prop :=
  exists it, In it retrieved_context /\
             (item_kg_class it = lit "A" \/ item_kg_class it = lit "B").

Definition type_retrieved (t : str) (retrieved_context : list chunk) : Prop :=
  exists c, In c retrieved_context /\ chunk_content_type c = t.

(** ** The engine: notions for the further properties *)

Section EngineDefsMore.

Context {H : Host}.

(** The candidates that compete for the slots left after the two quota
    steps, in the order of the sorted pool. *)
Definition quota_pool (h : heap) (l : list ref) : list ref :=
  let normative_text := filter (in_bucket h NormativeText) l in
  let non_normative_text := filter (in_bucket h NonNormativeText) l in
  let unknown_nontext := filter (in_bucket h NonText) l in
  let a := Nat.min MIN_NORMATIVE_TEXT (length normative_text) in
  let b := Nat.min MIN_UNKNOWN_NONTEXT (length unknown_nontext) in
  sort_desc (fun r => RERANK_SCORE (h r))
    (skipn a normative_text ++ skipn b unknown_nontext ++
     firstn MAX_NON_NORMATIVE_TEXT non_normative_text).

(** The items taken by the two quota steps. *)
Definition quota_guaranteed (h : heap) (l : list ref) : list ref :=
  let normative_text := filter (in_bucket h NormativeText) l in
  let unknown_nontext := filter (in_bucket h NonText) l in
  firstn (Nat.min MIN_NORMATIVE_TEXT (length normative_text)) normative_text
  ++ firstn (Nat.min MIN_UNKNOWN_NONTEXT (length unknown_nontext))
            unknown_nontext.

(** The slots left for the pool. *)
Definition quota_slots (h : heap) (l : list ref) : nat :=
  KG_FINAL_K - length (quota_guaranteed h l).

(** The objects of a list, referred to by their positions. *)
Definition heap_of (default : reranked) (objs : list reranked) : heap :=
  fun r => nth r objs default.

(** The tail of [_get_unified_view_content]: with the flag set and a
    candidate at hand, rerank, select, and return the selected objects;
    otherwise return the candidates as they are. *)
Definition kg_stage (use_kg_rerank : bool) (enriched_results : list candidate)
  : list candidate + list reranked :=
  match enriched_results with
  | c :: _ =>
      if use_kg_rerank then
        let reranked_results := _kg_rerank_candidates enriched_results in
        let h := heap_of (reranked_obj c) reranked_results in
        let refs := seq 0 (length reranked_results) in
        let res := _apply_quota_selection h refs in
        inr (map (snd res) (fst res))
      else inl enriched_results
  | [] => inl enriched_results
  end.

End EngineDefsMore.

(** The shipped configuration. *)
Definition USE_KG_RERANK : bool := false.

(** ** The reranker on objects in memory *)

(** [_kg_rerank_candidates] is handed a list of objects and hands back a
    list of objects.  To say what the call leaves alone, objects and lists
    are put at the addresses of a memory and the function is run there: it
    reads the candidates, allocates, and writes to what it has allocated. *)
Section EngineMemory.

Context {H : Host}.

(** What an address holds: a candidate, an object made by the reranker
    (the instance of [type('obj', (object,), {...})] with its attributes),
    or a list of addresses. *)
Inductive value : Type :=
| Candidate (c : candidate)
| Object (o : reranked)
| PyList (items : list ref).

(** The addresses below [next] are in use. *)
Record memory : Type := { next : ref; cell : ref -> value }.

Definition alloc (m : memory) (v : value) : ref * memory :=
  (next m,
   {| next := S (next m);
      cell := fun a => if Nat.eqb a (next m) then v else cell m a |}).

Definition store (m : memory) (a : ref) (v : value) : memory :=
  {| next := next m;
     cell := fun a' => if Nat.eqb a' a then v else cell m a' |}.

(** [for candidate in candidates: ...; reranked.append(reranked_obj)]: one
    new object for each candidate, appended to the list at [reranked].  The
    candidates are the objects that [_get_unified_view_content] builds. *)
Fixpoint rerank_loop (m : memory) (reranked : ref) (candidates : list ref)
  : option memory :=
  match candidates with
  | [] => Some m
  | candidate :: rest =>
      match cell m candidate with
      | Candidate c =>
          let (obj, m) := alloc m (Object (reranked_obj c)) in
          match cell m reranked with
          | PyList items =>
              rerank_loop (store m reranked (PyList (items ++ [obj])))
                          reranked rest
          | _ => None
          end
      | _ => None
      end
  end.

(** [getattr(x, 'RERANK_SCORE', 0)]. *)
Definition read_score (v : value) : float :=
  match v with
  | Object o => RERANK_SCORE o
  | _ => float_of_literal 0
  end.

Definition set_c_RANK (c : candidate) (rank : Z) : candidate :=
  {| c_CONTENT_ID := c_CONTENT_ID c; c_CONTENT_TYPE := c_CONTENT_TYPE c;
     c_SIMILARITY := c_SIMILARITY c; c_RANK := rank;
     c_KG_CLASS := c_KG_CLASS c; c_passthrough := c_passthrough c |}.

(** [for i, item in enumerate(reranked): item.RANK = i + 1]. *)
Fixpoint rank_loop (m : memory) (l : list (nat * ref)) : option memory :=
  match l with
  | [] => Some m
  | (i, item) :: rest =>
      match cell m item with
      | Object o =>
          rank_loop (store m item (Object (set_RANK o (Z.of_nat i + 1)))) rest
      | Candidate c =>
          rank_loop (store m item (Candidate (set_c_RANK c (Z.of_nat i + 1))))
                    rest
      | PyList _ => None
      end
  end.

(** The function on a memory: the address of the returned list and the
    memory after the call. *)
Definition _kg_rerank_candidates_mem (m : memory) (candidates : ref)
  : option (ref * memory) :=
  match cell m candidates with
  | PyList cs =>
      match cs with
      | [] => Some (alloc m (PyList []))
      | _ :: _ =>
          let (reranked, m) := alloc m (PyList []) in
          match rerank_loop m reranked cs with
          | Some m =>
              match cell m reranked with
              | PyList items =>
                  let items :=
                    sort_desc (fun x => read_score (cell m x)) items in
                  let m := store m reranked (PyList items) in
                  match rank_loop m (enumerate items) with
                  | Some m => Some (reranked, m)
                  | None => None
                  end
              | _ => None
              end
          | None => None
          end
      end
  | _ => None
  end.

End EngineMemory.

(** ** Query enrichment: [enrich_electrician_question] *)

(** [str.lower] on code points below 256: the letters A-Z and the
    accented capitals 0xC0..0xDE, the multiplication sign 0xD7 apart. *)
Definition lower_chr (c : ascii) : ascii :=
  let n := nat_of_ascii c in
  if ((65 <=? n)%nat && (n <=? 90)%nat)
     || ((192 <=? n)%nat && (n <=? 222)%nat && negb (n =? 215)%nat)
  then ascii_of_nat (n + 32) else c.

Definition lower (l : str) : str := map lower_chr l.

(** [pattern in s]. *)
Fixpoint contains (s pattern : str) : bool :=
  startswith s pattern ||
  match s with
  | [] => false
  | _ :: s' => contains s' pattern
  end.

(** [s.replace(old, new)] for one-character strings. *)
Definition replace_chr (old new : ascii) (l : str) : str :=
  map (fun c => if chr_eqb c old then new else c) l.

Definition line_feed : ascii := "010"%char.

Definition followup_patterns : list str :=
  [ lit "what about"; lit "and"; lit "also"; lit "additionally";
    lit "furthermore"; lit "it"; lit "this"; lit "that"; lit "them";
    lit "those"; lit "same" ].

Definition query_prefix : str := lit "AS3000 electrical standards query: ".

(** A chat message is its ['content'], [None] when the key is absent. *)
Definition enrich_electrician_question
    (raw_question : str) (chat_history : list (option str)) : str :=
  let enriched := query_prefix ++ strip is_space raw_question in
  if (1 <? length chat_history)%nat then
    let raw_lower := lower raw_question in
    let is_followup :=
      existsb (fun pattern => contains raw_lower pattern) followup_patterns in
    if is_followup && (2 <=? length chat_history)%nat then
      let last_message :=
        match last chat_history None with Some m => m | None => [] end in
      if (30 <? length last_message)%nat then
        let context_preview :=
          strip is_space
            (replace_chr line_feed " " (firstn 80 last_message)) in
        enriched ++ lit " (Context: " ++ context_preview ++ lit "...)"
      else enriched
    else enriched
  else enriched.

(** ** Citation extraction: [_extract_clause_references] *)

(** [a < b] on strings: lexicographic on the code points. *)
Fixpoint str_ltb (a b : str) : bool :=
  match a, b with
  | [], [] => false
  | [], _ :: _ => true
  | _ :: _, [] => false
  | x :: a', y :: b' =>
      if (nat_of_ascii x <? nat_of_ascii y)%nat then true
      else if (nat_of_ascii y <? nat_of_ascii x)%nat then false
      else str_ltb a' b'
  end.

(** [sorted(set(l))]: the distinct members of [l] in ascending order, built
    by inserting each member where it belongs unless it is there already. *)
Fixpoint insert_new (x : str) (s : list str) : list str :=
  match s with
  | [] => [x]
  | y :: r =>
      if str_ltb x y then x :: s
      else if str_eqb x y then s
      else y :: insert_new x r
  end.

Definition sorted_set (l : list str) : list str :=
  fold_right insert_new [] l.

Definition clause_reference_patterns : list str :=
  [ lit "AS/?NZS?\s*3000(?::\d{4})?\s+(?:Clause|Section)\s+([\d.]+)";
    lit "(?:Clause|Section)\s+([\d.]+)";
    lit "AS3000\s+([\d.]+)" ].

Section ExtractionDefs.

(** [re.findall(pattern, text, re.IGNORECASE)] for a pattern with one
    group: the strings captured by the group, match after match. *)
Variable re_findall_ignorecase : str -> str -> list str.

(** The list [clauses] before it is deduplicated and sorted. *)
Definition clause_matches (text : str) : list str :=
  flat_map (fun pattern => re_findall_ignorecase pattern text)
           clause_reference_patterns.

Definition _extract_clause_references (text : str) : list str :=
  sorted_set (clause_matches text).

(** The deterministic citation grade of [_evaluate_with_context]. *)
Definition citation_grading (answer : str) (expected_clause : option str)
  : grading :=
  let cited_clauses := _extract_clause_references answer in
  _grade_citation_accuracy cited_clauses expected_clause.

End ExtractionDefs.

(** ** More example inputs *)

(** Two class-A items and one class-C item, the second of them cited. *)
Definition example_retrieved : list item :=
  [ {| content_id := Some (lit "TEXT_1"); kg_class := Some (lit "C") |};
    {| content_id := Some (lit "TEXT_2"); kg_class := Some (lit "A") |};
    {| content_id := Some (lit "TEXT_3"); kg_class := None |} ].

(** A text chunk and a structured table. *)
Definition example_chunks : list chunk :=
  [ {| chunk_item := {| content_id := Some (lit "TEXT_1");
                        kg_class := Some (lit "A") |};
       content_type := Some (lit "text_chunk") |};
    {| chunk_item := {| content_id := Some (lit "TABLE_1");
                        kg_class := None |};
       content_type := Some (lit "structured_table") |} ].

(** ** Example inputs on the binary64 floats *)

Definition binary64_candidate (content_id content_type kg_class : str)
    (similarity : PrimFloat.float) : @candidate FloatHost :=
  @Build_candidate FloatHost content_id content_type similarity 0%Z kg_class [].

(** Three tables, the second with the similarity NaN. *)
Definition nan_candidates : list (@candidate FloatHost) :=
  [ binary64_candidate (lit "TABLE_1") (lit "structured_table") (lit "UNKNOWN")
                       (binary64_of_literal 1.0);
    binary64_candidate (lit "TABLE_2") (lit "structured_table") (lit "UNKNOWN")
                       PrimFloat.nan;
    binary64_candidate (lit "TABLE_3") (lit "structured_table") (lit "UNKNOWN")
                       (binary64_of_literal 2.0) ].

(** A table at 0.15 before a class-B text at 0.1. *)
Definition rounding_candidates : list (@candidate FloatHost) :=
  [ binary64_candidate (lit "TABLE_x") (lit "structured_table") (lit "UNKNOWN")
                       (binary64_of_literal 0.15);
    binary64_candidate (lit "TEXT_y") (lit "text_chunk") (lit "B")
                       (binary64_of_literal 0.1) ].

(** A memory that holds the two example candidates at 0 and 1 and their
    list at 2. *)
Definition example_memory : @memory FloatHost :=
  {| next := 3%nat;
     cell := fun a =>
       match nth_error example_candidates a with
       | Some c => Candidate c
       | None => PyList [0%nat; 1%nat]
       end |}.

Local Close Scope Q_scope.

(** * Properties *)

(** ** Strings *)

Section StrFacts.

Lemma chr_eqb_eq a b : chr_eqb a b = true <-> a = b.
Proof. apply Ascii.eqb_eq. Qed.

Lemma chr_eqb_refl a : chr_eqb a a = true.
Proof. apply Ascii.eqb_refl. Qed.

Lemma chr_eqb_sym a b : chr_eqb a b = chr_eqb b a.
Proof. apply Ascii.eqb_sym. Qed.

Lemma str_eqb_eq a b : str_eqb a b = true <-> a = b.
Proof.
  revert b; induction a as [|x a IH]; intros [|y b]; simpl;
    try (split; (discriminate || reflexivity)).
  rewrite andb_true_iff, chr_eqb_eq, IH.
  split; [intros [-> ->]; reflexivity | intros E; inversion E; auto].
Qed.

Lemma str_eqb_refl a : str_eqb a a = true.
Proof. apply str_eqb_eq; reflexivity. Qed.

Lemma str_eqb_neq a b : str_eqb a b = false <-> a <> b.
Proof.
  rewrite <- str_eqb_eq. destruct (str_eqb a b); split; congruence.
Qed.

Lemma is_dot_eq c : is_dot c = true <-> c = "."%char.
Proof. apply chr_eqb_eq. Qed.

Lemma split_not_nil sep l : split sep l <> [].
Proof.
  destruct l as [|c r]; simpl; [discriminate|].
  destruct (chr_eqb c sep); [discriminate|].
  destruct (split sep r); discriminate.
Qed.

Lemma split_length_pos sep l : 1 <= length (split sep l).
Proof.
  pose proof (split_not_nil sep l) as H.
  destruct (split sep l); [contradiction | simpl; lia].
Qed.

Lemma join_split sep l : join sep (split sep l) = l.
Proof.
  induction l as [|c r IH]; simpl; [reflexivity|].
  destruct (chr_eqb c sep) eqn:E.
  - apply chr_eqb_eq in E; subst c.
    pose proof (split_not_nil sep r) as N.
    destruct (split sep r) as [|f fs]; [contradiction|].
    simpl. simpl in IH. rewrite IH. reflexivity.
  - pose proof (split_not_nil sep r) as N.
    destruct (split sep r) as [|f fs]; [contradiction|].
    destruct fs as [|g fs]; simpl in *; rewrite <- IH; reflexivity.
Qed.

Lemma lstrip_Forall (P : ascii -> Prop) p l :
  Forall P l -> Forall P (lstrip p l).
Proof.
  induction 1 as [|c r Hc Hr IH]; simpl; [constructor|].
  destruct (p c); [assumption | constructor; assumption].
Qed.

Lemma strip_Forall (P : ascii -> Prop) p l :
  Forall P l -> Forall P (strip p l).
Proof.
  intros H. unfold strip, rstrip.
  apply Forall_rev, lstrip_Forall, Forall_rev, lstrip_Forall, H.
Qed.

End StrFacts.

(** ** ClauseNormalizer *)

Section Normalizer.

Lemma keep_digits_dots_Forall l : Forall digit_or_dot (keep_digits_dots l).
Proof.
  unfold keep_digits_dots. apply Forall_forall. intros c Hc.
  apply filter_In in Hc. apply Hc.
Qed.

Lemma collapse_dots_Forall (P : ascii -> Prop) l :
  Forall P l -> Forall P (collapse_dots l).
Proof.
  induction 1 as [|c r Hc Hr IH]; simpl; [constructor|].
  destruct (is_dot c && _); [assumption | constructor; assumption].
Qed.

Lemma clean_clause_Forall clause : Forall digit_or_dot (clean_clause clause).
Proof.
  unfold clean_clause.
  apply strip_Forall, collapse_dots_Forall, keep_digits_dots_Forall.
Qed.

Lemma clause_id_cons c l :
  is_digit c = true -> clause_id l -> clause_id (c :: l).
Proof.
  intros Hc [d Hd | d r Hd Hr].
  - apply clause_id_seg, digits1_cons; assumption.
  - change (c :: d ++ "."%char :: r) with ((c :: d) ++ "."%char :: r).
    apply clause_id_dot; [apply digits1_cons|]; assumption.
Qed.

Lemma match_clause_re_sound l :
  Forall digit_or_dot l ->
  (match_clause_re false l = true -> clause_id l) /\
  (match_clause_re true l = true ->
   l = [] \/ clause_id l \/ exists r, l = "."%char :: r /\ clause_id r).
Proof.
  induction 1 as [|c r Hc Hr [IHf IHt]]; simpl.
  - split; [discriminate | auto].
  - destruct (is_digit c) eqn:Dc.
    + assert (K : match_clause_re true r = true -> clause_id (c :: r)).
      { intros M. destruct (IHt M) as [-> | [Hid | (r' & -> & Hid)]].
        - apply clause_id_seg, digits1_one, Dc.
        - apply clause_id_cons; assumption.
        - apply (clause_id_dot (d := [c])); [apply digits1_one, Dc | exact Hid]. }
      split; auto.
    + unfold digit_or_dot in Hc. rewrite Dc in Hc. simpl in Hc. rewrite Hc.
      apply is_dot_eq in Hc. subst c. simpl.
      split; [discriminate|]. intros M. right; right. eauto.
Qed.

Lemma match_clause_re_digits d :
  digits1 d -> forall b rest,
  match_clause_re b (d ++ rest) = match_clause_re true rest.
Proof.
  induction 1 as [c Hc | c l Hc Hl IH]; intros b rest; simpl; rewrite Hc.
  - reflexivity.
  - apply IH.
Qed.

Lemma match_clause_re_complete l :
  clause_id l -> forall b, match_clause_re b l = true.
Proof.
  induction 1 as [d Hd | d r Hd Hr IH]; intros b.
  - rewrite <- (app_nil_r d). rewrite match_clause_re_digits by assumption.
    reflexivity.
  - rewrite match_clause_re_digits by assumption. simpl. apply IH.
Qed.

Lemma normalize_clause_unfold clause :
  _normalize_clause clause =
  if match_clause_re false (clean_clause clause)
  then Some (clean_clause clause) else None.
Proof.
  destruct clause as [|c r]; reflexivity.
Qed.

(** C8: the normalizer is a total function; it answers with the cleaned
    string (whitespace trimmed, non-digit non-dot characters deleted, runs of
    dots collapsed, outer dots stripped) exactly when that string is in the
    language of [^\d+(\.\d+)*$], and with [None] otherwise.  "Clause 1..4."
    gives "1.4"; "abc", "." and the empty string give [None]. *)
Theorem normalize_clause_spec :
  (forall clause,
     match _normalize_clause clause with
     | Some r => r = clean_clause clause /\ clause_id r
     | None => ~ clause_id (clean_clause clause)
     end) /\
  _normalize_clause (lit "Clause 1..4.") = Some (lit "1.4") /\
  _normalize_clause (lit "abc") = None /\
  _normalize_clause (lit ".") = None /\
  _normalize_clause (lit "") = None.
Proof.
  split; [|repeat split; reflexivity].
  intros clause. rewrite normalize_clause_unfold.
  destruct (match_clause_re false (clean_clause clause)) eqn:M.
  - split; [reflexivity|].
    apply (match_clause_re_sound (clean_clause_Forall clause)), M.
  - intros Hid. rewrite (match_clause_re_complete Hid) in M. discriminate.
Qed.

End Normalizer.

(** ** ClauseMatcher *)

Section Matcher.

Local Open Scope Q_scope.

Lemma strict_prefix_nil_r a : strict_prefix a [] = false.
Proof. destruct a; reflexivity. Qed.

(** [expected.startswith(cited + '.')] says that the dotted segments of
    [cited] are a strict prefix of those of [expected]. *)
Lemma startswith_dot_segments cited expected :
  startswith expected (cited ++ lit ".") =
  strict_prefix (split "." cited) (split "." expected).
Proof.
  revert expected; induction cited as [|a c IH]; intros [|x e]; simpl.
  - reflexivity.
  - rewrite andb_true_r.
    destruct (chr_eqb x ".") eqn:E; simpl.
    + pose proof (split_not_nil "." e) as N.
      destruct (split "." e); [contradiction | reflexivity].
    + destruct (split "." e); reflexivity.
  - destruct (chr_eqb a "."); simpl.
    + apply eq_sym, strict_prefix_nil_r.
    + destruct (split "." c); reflexivity.
  - rewrite IH.
    pose proof (split_not_nil "." c) as Nc.
    pose proof (split_not_nil "." e) as Ne.
    destruct (chr_eqb a ".") eqn:Ea, (chr_eqb x ".") eqn:Ex; simpl.
    + apply chr_eqb_eq in Ea, Ex. subst. rewrite chr_eqb_refl. reflexivity.
    + apply chr_eqb_eq in Ea. subst a. rewrite Ex.
      destruct (split "." e); reflexivity.
    + apply chr_eqb_eq in Ex. subst x. rewrite chr_eqb_sym, Ea.
      destruct (split "." c); reflexivity.
    + destruct (split "." c) as [|s ss]; [contradiction|].
      destruct (split "." e) as [|t ts]; [contradiction|].
      simpl. rewrite (chr_eqb_sym a x), andb_assoc. reflexivity.
Qed.

Lemma strict_prefix_shorter a b :
  strict_prefix a b = true -> (length a < length b)%nat.
Proof.
  revert b; induction a as [|x a IH]; intros [|y b]; simpl;
    try discriminate; try lia.
  intros H. apply andb_true_iff in H. destruct H as [_ H].
  apply IH in H. lia.
Qed.

Lemma depth_ladder_score clause :
  depth_ladder (length (split "." clause)) = Some (depth_score (depth clause)).
Proof.
  unfold depth. pose proof (split_length_pos "." clause) as H.
  destruct (length (split "." clause)) as [|[|[|n]]]; try reflexivity; lia.
Qed.

Lemma nth0_hd (l : list str) : nth 0 l [] = hd [] l.
Proof. destruct l; reflexivity. Qed.

Lemma compute_score_refines cited expected :
  _compute_clause_match_score cited expected = ClauseMatcher cited expected.
Proof.
  unfold _compute_clause_match_score, ClauseMatcher.
  destruct (str_eqb cited expected); [reflexivity|].
  rewrite !startswith_dot_segments, !depth_ladder_score, !nth0_hd.
  destruct (strict_prefix (split "." cited) (split "." expected));
    [reflexivity|].
  destruct (strict_prefix (split "." expected) (split "." cited));
    reflexivity.
Qed.

(** C1: the score computed by the code is the one of the specification's
    rule table: 1.0 on equal strings; else, when the dotted segments of one
    clause are a strict prefix of the other's (either direction), the score
    of the depth of that shorter clause, 0.5 / 0.6 / 0.75 for depth 1 / 2 /
    3 and more; else 0.3 on equal first segments; else 0.0. *)
Theorem clause_match_score_spec :
  (forall cited expected,
     _compute_clause_match_score cited expected = ClauseMatcher cited expected) /\
  (forall a b,
     strict_prefix (split "." a) (split "." b) = true ->
     (depth a < depth b)%nat) /\
  (depth_score 1 = 0.5 /\ depth_score 2 = 0.6 /\
   forall d, (3 <= d)%nat -> depth_score d = 0.75) /\
  _compute_clause_match_score (lit "1.4") (lit "1.4.32") = 0.6 /\
  _compute_clause_match_score (lit "1.4.32") (lit "1.4") = 0.6 /\
  _compute_clause_match_score (lit "1.4") (lit "1.5") = 0.3 /\
  _compute_clause_match_score (lit "2.1") (lit "1.1") = 0.0 /\
  _compute_clause_match_score (lit "1.4") (lit "1.4") = 1.0.
Proof.
  split; [|split; [|split; [|repeat split; reflexivity]]].
  - apply compute_score_refines.
  - intros a b H. apply strict_prefix_shorter, H.
  - repeat split. intros d Hd.
    destruct d as [|[|[|d]]]; try lia; reflexivity.
Qed.

End Matcher.

(** ** CitationGrader *)

Section Grader.

Local Open Scope Q_scope.

Lemma Qltb_true a b : Qltb a b = true <-> a < b.
Proof.
  unfold Qltb. rewrite Qlt_alt.
  destruct (a ?= b); split; congruence.
Qed.

Lemma Qltb_false a b : Qltb a b = false <-> b <= a.
Proof.
  split.
  - intros H. apply Qnot_lt_le. intros L. apply Qltb_true in L. congruence.
  - intros H. destruct (Qltb a b) eqn:E; [|reflexivity].
    apply Qltb_true in E. exfalso. apply (Qlt_not_le _ _ E H).
Qed.

(** The running maximum kept by both loops. *)
Lemma py_max_spec xs : forall x,
  (py_max x xs = x \/ In (py_max x xs) xs) /\
  x <= py_max x xs /\
  forall y, In y xs -> y <= py_max x xs.
Proof.
  unfold py_max.
  induction xs as [|y xs IH]; intros x; simpl.
  - split; [auto|]. split; [apply Qle_refl | contradiction].
  - destruct (Qltb x y) eqn:E.
    + apply Qltb_true in E.
      destruct (IH y) as (Hin & Hle & Hall).
      split; [destruct Hin; auto|].
      split; [eapply Qle_trans; [apply Qlt_le_weak, E | exact Hle]|].
      intros z [<- | Hz]; auto.
    + apply Qltb_false in E.
      destruct (IH x) as (Hin & Hle & Hall).
      split; [destruct Hin; auto|].
      split; [exact Hle|].
      intros z [<- | Hz]; [eapply Qle_trans; eauto | auto].
Qed.

Lemma py_max_is_maximum x xs : is_maximum (py_max x xs) (x :: xs).
Proof.
  destruct (py_max_spec xs x) as (Hin & Hle & Hall).
  split.
  - destruct Hin as [-> | Hin]; [left; reflexivity | right; exact Hin].
  - intros y [<- | Hy]; auto.
Qed.

Lemma best_match_loop cited l : forall st : Q * option str,
  fst (fold_left
         (fun (best : Q * option str) expected =>
            let score := _compute_clause_match_score cited expected in
            if Qltb (fst best) score then (score, Some expected) else best)
         l st) =
  py_max (fst st) (map (_compute_clause_match_score cited) l).
Proof.
  unfold py_max.
  induction l as [|e l IH]; intros st; simpl; [reflexivity|].
  rewrite IH. destruct (Qltb (fst st) _); reflexivity.
Qed.

Lemma best_match_fst cited expected_set :
  fst (best_match cited expected_set) =
  py_max 0.0 (map (_compute_clause_match_score cited) expected_set).
Proof. apply best_match_loop. Qed.

(** The six values of the matcher. *)
Lemma score_values cited expected :
  In (_compute_clause_match_score cited expected)
     [1.0; 0.75; 0.6; 0.5; 0.3; 0.0].
Proof.
  rewrite compute_score_refines. unfold ClauseMatcher.
  destruct (str_eqb cited expected); [simpl; auto|].
  assert (D : forall d, In (depth_score d) [1.0; 0.75; 0.6; 0.5; 0.3; 0.0]).
  { intros [|[|[|d]]]; simpl; auto 7. }
  destruct (strict_prefix (split "." cited) (split "." expected));
    [apply D|].
  destruct (strict_prefix (split "." expected) (split "." cited));
    [apply D|].
  destruct (str_eqb (hd [] (split "." cited)) (hd [] (split "." expected)));
    simpl; auto 7.
Qed.

Lemma score_nonneg cited expected :
  0.0 <= _compute_clause_match_score cited expected.
Proof.
  pose proof (score_values cited expected) as H. simpl in H.
  destruct H as [<-|[<-|[<-|[<-|[<-|[<-|[]]]]]]]; discriminate.
Qed.

Lemma score_zero cited expected :
  _compute_clause_match_score cited expected <= 0.0 ->
  _compute_clause_match_score cited expected = 0.0.
Proof.
  pose proof (score_values cited expected) as H. simpl in H.
  destruct H as [<-|[<-|[<-|[<-|[<-|[<-|[]]]]]]]; intros L;
    try reflexivity; exfalso; apply L; reflexivity.
Qed.

(** The best score of a cited clause is the largest of its scores against
    the expected clauses. *)
Lemma best_match_is_maximum cited expected_set :
  expected_set <> [] ->
  is_maximum (fst (best_match cited expected_set))
             (map (_compute_clause_match_score cited) expected_set).
Proof.
  intros N. rewrite best_match_fst.
  destruct (py_max_spec (map (_compute_clause_match_score cited) expected_set)
              0.0) as (Hin & Hle & Hall).
  split; [|exact Hall].
  destruct Hin as [E | Hin]; [|exact Hin].
  destruct expected_set as [|e es]; [contradiction|].
  rewrite E in *. left. apply score_zero, Hall. left. reflexivity.
Qed.

Lemma Forall2_map_r (A B : Type) (R : A -> B -> Prop) (f : A -> B) l :
  (forall x, In x l -> R x (f x)) -> Forall2 R l (map f l).
Proof.
  induction l as [|x l IH]; intros H; simpl; constructor.
  - apply H. left. reflexivity.
  - apply IH. intros y Hy. apply H. right. exact Hy.
Qed.

Lemma truthy_nil xs :
  Forall (fun x : option str => x = None) xs -> truthy xs = [].
Proof.
  induction 1 as [|x xs Hx Hxs IH]; simpl; [reflexivity|].
  rewrite Hx. exact IH.
Qed.

(** With survivors on both sides the grader reaches its scoring loops. *)
Lemma grade_scored cited_clauses expected_clause :
  normalize_cited cited_clauses <> [] ->
  parse_expected expected_clause <> [] ->
  exists s ss,
    match_scores (normalize_cited cited_clauses)
                 (parse_expected expected_clause) = s :: ss /\
    citation_accuracy
      (_grade_citation_accuracy cited_clauses (Some expected_clause)) =
    py_max s ss /\
    correct_clause_ref
      (_grade_citation_accuracy cited_clauses (Some expected_clause)) =
    Qle_bool 0.75 (py_max s ss).
Proof.
  intros Nc Ne.
  destruct cited_clauses as [|c0 cs]; [contradiction Nc; reflexivity|].
  destruct expected_clause as [|e0 es]; [contradiction Ne; reflexivity|].
  unfold _grade_citation_accuracy, match_scores.
  destruct (parse_expected (e0 :: es)) as [|x xs]; [contradiction|].
  destruct (normalize_cited (c0 :: cs)) as [|y ys]; [contradiction|].
  cbv zeta. rewrite map_map. cbn [map fst snd].
  eexists _, _. repeat split.
Qed.

(** C6: when a cited and an expected clause survive normalization, each
    per-citation score is the maximum of the matcher over the normalized
    expected clauses, the accuracy is the maximum of the per-citation scores,
    and the answer is correct exactly when the accuracy is at least 0.75. *)
Theorem grade_citations_best_match cited_clauses expected_clause :
  normalize_cited cited_clauses <> [] ->
  parse_expected expected_clause <> [] ->
  let cited_set := normalize_cited cited_clauses in
  let expected_set := parse_expected expected_clause in
  let g := _grade_citation_accuracy cited_clauses (Some expected_clause) in
  Forall2
    (fun cited best =>
       is_maximum best (map (_compute_clause_match_score cited) expected_set))
    cited_set (match_scores cited_set expected_set) /\
  is_maximum (citation_accuracy g) (match_scores cited_set expected_set) /\
  (correct_clause_ref g = true <-> 0.75 <= citation_accuracy g).
Proof.
  intros Nc Ne cited_set expected_set g.
  destruct (grade_scored cited_clauses expected_clause Nc Ne)
    as (s & ss & Hms & Hacc & Hok).
  subst g cited_set expected_set. rewrite Hacc, Hok, Hms.
  split; [|split].
  - rewrite <- Hms. unfold match_scores.
    apply Forall2_map_r. intros cited _.
    apply best_match_is_maximum, Ne.
  - apply py_max_is_maximum.
  - apply Qle_bool_iff.
Qed.

Lemma grade_citations_best_match_witness :
  is_maximum
    (citation_accuracy
       (_grade_citation_accuracy [lit "1.4.32"; lit "Clause 9"]
                                 (Some (lit "1.4.32.1 , 2.1"))))
    (match_scores [lit "1.4.32"; lit "9"] [lit "1.4.32.1"; lit "2.1"]).
Proof.
  apply (grade_citations_best_match [lit "1.4.32"; lit "Clause 9"]
           (lit "1.4.32.1 , 2.1")); vm_compute; discriminate.
Defined.

(** C7, as stated, fails: a cited list none of whose members normalizes is
    graded 0.5, not 0.0, when no expected clause normalizes either. *)
Lemma grade_degenerate_counterexample :
  ~ (forall cited_clauses expected_clause,
       Forall (fun c => _normalize_clause c = None) cited_clauses ->
       citation_accuracy
         (_grade_citation_accuracy cited_clauses expected_clause) == 0.0).
Proof.
  intros H.
  specialize (H [lit "abc"] (Some (lit "xyz"))).
  assert (F : Forall (fun c => _normalize_clause c = None) [lit "abc"])
    by (repeat constructor).
  specialize (H F). vm_compute in H. discriminate H.
Qed.

(** C7, amended: the degenerate inputs are graded by the first check that
    applies, in the order of the code: no cited clause, 0.0; else no
    expected string, or none of its comma-separated parts normalizes, 0.5;
    else no cited clause normalizes, 0.0; never correct. *)
Theorem grade_degenerate :
  (forall expected_clause,
     let g := _grade_citation_accuracy [] expected_clause in
     citation_accuracy g = 0.0 /\ correct_clause_ref g = false) /\
  (forall cited_clauses expected_clause,
     cited_clauses <> [] ->
     expected_clause = None \/ expected_clause = Some [] ->
     let g := _grade_citation_accuracy cited_clauses expected_clause in
     citation_accuracy g = 0.5 /\ correct_clause_ref g = false) /\
  (forall cited_clauses expected_clause,
     cited_clauses <> [] ->
     Forall (fun e => _normalize_clause (strip is_space e) = None)
            (split "," expected_clause) ->
     let g := _grade_citation_accuracy cited_clauses (Some expected_clause) in
     citation_accuracy g = 0.5 /\ correct_clause_ref g = false) /\
  (forall cited_clauses expected_clause,
     parse_expected expected_clause <> [] ->
     Forall (fun c => _normalize_clause c = None) cited_clauses ->
     let g := _grade_citation_accuracy cited_clauses (Some expected_clause) in
     citation_accuracy g = 0.0 /\ correct_clause_ref g = false) /\
  (let g := _grade_citation_accuracy [] (Some (lit "1.4")) in
   citation_accuracy g = 0.0 /\ correct_clause_ref g = false) /\
  (let g := _grade_citation_accuracy [lit "1.4.32"] (Some (lit "")) in
   citation_accuracy g = 0.5 /\ correct_clause_ref g = false).
Proof.
  split; [|split; [|split; [|split; [|split]]]];
    [| | | |split; reflexivity|split; reflexivity].
  - intros e. split; reflexivity.
  - intros cs e N [-> | ->]; (destruct cs; [contradiction|]);
      split; reflexivity.
  - intros cs e N F.
    assert (P : parse_expected e = []).
    { unfold parse_expected. apply truthy_nil.
      rewrite map_map. apply Forall_map. exact F. }
    destruct cs as [|c cs]; [contradiction|].
    destruct e as [|x e]; [split; reflexivity|].
    cbv zeta. unfold _grade_citation_accuracy. rewrite P. split; reflexivity.
  - intros cs e N F.
    assert (P : normalize_cited cs = []).
    { unfold normalize_cited. apply truthy_nil, Forall_map. exact F. }
    destruct cs as [|c cs]; [split; reflexivity|].
    destruct e as [|x e]; [contradiction N; reflexivity|].
    cbv zeta. unfold _grade_citation_accuracy.
    destruct (parse_expected (x :: e)); [contradiction|].
    rewrite P. split; reflexivity.
Qed.

Lemma grade_degenerate_witness :
  citation_accuracy
    (_grade_citation_accuracy [lit "abc"] (Some (lit "1.4"))) = 0.0 /\
  citation_accuracy
    (_grade_citation_accuracy [lit "abc"] (Some (lit "xyz, ."))) = 0.5 /\
  citation_accuracy (_grade_citation_accuracy [lit "1.4"] None) = 0.5.
Proof.
  destruct grade_degenerate as (_ & Hb & Hc & Hd & _).
  split; [|split].
  - apply (Hd [lit "abc"] (lit "1.4")).
    + vm_compute. discriminate.
    + repeat constructor.
  - apply (Hc [lit "abc"] (lit "xyz, .")).
    + discriminate.
    + repeat constructor.
  - apply (Hb [lit "1.4"] None); [discriminate | left; reflexivity].
Defined.

End Grader.

(** ** The engine *)

Section EngineProps.

Context {H : Host}.

(** *** The sort *)

Lemma insert_desc_perm (A : Type) (key : A -> float) x l :
  Permutation (insert_desc key x l) (x :: l).
Proof.
  induction l as [|y r IH]; simpl; [reflexivity|].
  destruct (flt (key x) (key y)); [|reflexivity].
  rewrite IH. apply perm_swap.
Qed.

Lemma sort_desc_perm (A : Type) (key : A -> float) l :
  Permutation (sort_desc key l) l.
Proof.
  induction l as [|x r IH]; simpl; [reflexivity|].
  rewrite insert_desc_perm. apply perm_skip, IH.
Qed.

(** *** Counting *)

Lemma count_app p l1 l2 : count p (l1 ++ l2) = count p l1 + count p l2.
Proof. unfold count. rewrite filter_app, length_app. reflexivity. Qed.

Lemma count_perm p l1 l2 : Permutation l1 l2 -> count p l1 = count p l2.
Proof.
  induction 1 as [|x l l' _ IH|x y l|l l' l'' _ IH1 _ IH2]; unfold count in *;
    simpl; try reflexivity.
  - destruct (p x); simpl; congruence.
  - destruct (p x), (p y); reflexivity.
  - congruence.
Qed.

Lemma count_split p n l : count p (firstn n l) + count p (skipn n l) = count p l.
Proof. rewrite <- count_app, firstn_skipn. reflexivity. Qed.

Lemma count_firstn_le p n l : count p (firstn n l) <= count p l.
Proof. pose proof (count_split p n l). lia. Qed.

Lemma count_le_length p l : count p l <= length l.
Proof. apply filter_length_le. Qed.

Lemma count_true l : count (fun _ => true) l = length l.
Proof.
  unfold count. induction l as [|x l IH]; simpl; congruence.
Qed.

Lemma count_eqb_In x l : 1 <= count (Nat.eqb x) l <-> In x l.
Proof.
  unfold count. induction l as [|y l IH]; simpl; [split; [lia|tauto]|].
  destruct (Nat.eqb x y) eqn:E; simpl.
  - apply Nat.eqb_eq in E. split; [auto | lia].
  - apply Nat.eqb_neq in E. rewrite IH. split; [auto|].
    intros [E' | Hin]; [congruence | exact Hin].
Qed.

Lemma count_eqb_count_occ x l :
  count (Nat.eqb x) l = count_occ Nat.eq_dec l x.
Proof.
  unfold count. induction l as [|y l IH]; simpl; [reflexivity|].
  destruct (Nat.eq_dec y x) as [->|N].
  - rewrite Nat.eqb_refl. simpl. congruence.
  - destruct (Nat.eqb x y) eqn:E; [|exact IH].
    apply Nat.eqb_eq in E. congruence.
Qed.

Lemma count_filter_all p q l :
  (forall x, q x = true -> p x = true) ->
  count p (filter q l) = length (filter q l).
Proof.
  intros Hpq. unfold count. f_equal.
  induction l as [|x l IH]; simpl; [reflexivity|].
  destruct (q x) eqn:E; simpl; [rewrite (Hpq x E); congruence | exact IH].
Qed.

Lemma count_filter_none p q l :
  (forall x, q x = true -> p x = false) ->
  count p (filter q l) = 0.
Proof.
  intros Hpq. unfold count.
  induction l as [|x l IH]; simpl; [reflexivity|].
  destruct (q x) eqn:E; simpl; [rewrite (Hpq x E); exact IH | exact IH].
Qed.

(** *** The buckets *)

Lemma categorize_filter h l :
  categorize h l =
  (filter (in_bucket h NormativeText) l,
   filter (in_bucket h NonNormativeText) l,
   filter (in_bucket h NonText) l).
Proof.
  induction l as [|c r IH]; simpl; [reflexivity|].
  rewrite IH. unfold in_bucket.
  destruct (bucket_of (h c)); reflexivity.
Qed.

(** The three buckets partition the input. *)
Lemma count_buckets h p l :
  count p l =
  count p (filter (in_bucket h NormativeText) l) +
  count p (filter (in_bucket h NonNormativeText) l) +
  count p (filter (in_bucket h NonText) l).
Proof.
  unfold count. induction l as [|c r IH]; simpl; [reflexivity|].
  unfold in_bucket in *.
  destruct (bucket_of (h c)); simpl; destruct (p c); simpl; lia.
Qed.

Lemma in_bucket_disjoint h b b' r :
  b <> b' -> in_bucket h b r = true -> in_bucket h b' r = false.
Proof.
  unfold in_bucket. destruct (bucket_of (h r)), b, b'; congruence.
Qed.

(** *** The three steps of the selector *)

Lemma quota_selection_steps h l :
  quota_selection h l =
  sort_desc (fun r => RERANK_SCORE (h r)) (quota_steps h l).
Proof.
  unfold quota_selection, quota_steps. rewrite categorize_filter.
  cbv zeta. destruct (0 <? _)%Z; reflexivity.
Qed.

Lemma quota_selection_perm h l :
  Permutation (quota_selection h l) (quota_steps h l).
Proof. rewrite quota_selection_steps. apply sort_desc_perm. Qed.

(** Whatever is counted, the steps select no more of it than the input
    holds: the quota slices and the pool are disjoint parts of the three
    buckets. *)
Lemma quota_steps_count h p l : count p (quota_steps h l) <= count p l.
Proof.
  unfold quota_steps. cbv zeta.
  set (N := filter (in_bucket h NormativeText) l).
  set (C := filter (in_bucket h NonNormativeText) l).
  set (U := filter (in_bucket h NonText) l).
  set (a := Nat.min MIN_NORMATIVE_TEXT (length N)).
  set (b := Nat.min MIN_UNKNOWN_NONTEXT (length U)).
  rewrite (count_buckets h p l). fold N C U.
  pose proof (count_split p a N) as HN.
  pose proof (count_split p b U) as HU.
  pose proof (count_firstn_le p MAX_NON_NORMATIVE_TEXT C) as HC.
  destruct (0 <? _)%Z.
  - rewrite !count_app.
    match goal with
    | |- context [count p (firstn ?n (sort_desc ?k ?pool))] =>
        pose proof (count_firstn_le p n (sort_desc k pool)) as HF;
        rewrite (count_perm p (sort_desc_perm k pool)) in HF
    end.
    rewrite !count_app in HF. lia.
  - rewrite count_app. lia.
Qed.

Lemma quota_steps_length h l : length (quota_steps h l) <= KG_FINAL_K.
Proof.
  unfold quota_steps. cbv zeta.
  set (N := filter (in_bucket h NormativeText) l).
  set (U := filter (in_bucket h NonText) l).
  set (a := Nat.min MIN_NORMATIVE_TEXT (length N)).
  set (b := Nat.min MIN_UNKNOWN_NONTEXT (length U)).
  assert (Hq : length (firstn a N ++ firstn b U) <= 6).
  { rewrite length_app, !length_firstn. subst a b.
    unfold MIN_NORMATIVE_TEXT, MIN_UNKNOWN_NONTEXT. lia. }
  destruct (Z.ltb_spec 0 (Z.of_nat KG_FINAL_K -
                          Z.of_nat (length (firstn a N ++ firstn b U)))).
  - rewrite length_app, length_firstn. lia.
  - unfold KG_FINAL_K. lia.
Qed.

Lemma quota_steps_normative h l :
  MIN_NORMATIVE_TEXT <= count (in_bucket h NormativeText) l ->
  MIN_NORMATIVE_TEXT <= count (in_bucket h NormativeText) (quota_steps h l).
Proof.
  intros Hmin. unfold quota_steps. cbv zeta.
  set (N := filter (in_bucket h NormativeText) l).
  set (a := Nat.min MIN_NORMATIVE_TEXT (length N)).
  assert (Ha : count (in_bucket h NormativeText) (firstn a N) =
               MIN_NORMATIVE_TEXT).
  { pose proof (count_split (in_bucket h NormativeText) a N) as Hs.
    pose proof (count_le_length (in_bucket h NormativeText) (skipn a N)) as Hk.
    rewrite length_skipn in Hk.
    pose proof (count_le_length (in_bucket h NormativeText) (firstn a N)) as Hf.
    rewrite length_firstn in Hf.
    assert (HN : count (in_bucket h NormativeText) N = length N)
      by (apply count_filter_all; auto).
    unfold count in Hmin at 1. fold N in Hmin. subst a. lia. }
  destruct (0 <? _)%Z; rewrite !count_app; lia.
Qed.

Lemma quota_steps_non_normative h l :
  count (in_bucket h NonNormativeText) (quota_steps h l) <=
  MAX_NON_NORMATIVE_TEXT.
Proof.
  unfold quota_steps. cbv zeta.
  set (N := filter (in_bucket h NormativeText) l).
  set (C := filter (in_bucket h NonNormativeText) l).
  set (U := filter (in_bucket h NonText) l).
  set (a := Nat.min MIN_NORMATIVE_TEXT (length N)).
  set (b := Nat.min MIN_UNKNOWN_NONTEXT (length U)).
  set (p := in_bucket h NonNormativeText).
  assert (HN : count p N = 0).
  { apply count_filter_none. intros x.
    apply in_bucket_disjoint. discriminate. }
  assert (HU : count p U = 0).
  { apply count_filter_none. intros x.
    apply in_bucket_disjoint. discriminate. }
  pose proof (count_split p a N) as HNs.
  pose proof (count_split p b U) as HUs.
  pose proof (count_le_length p (firstn MAX_NON_NORMATIVE_TEXT C)) as HC.
  rewrite length_firstn in HC.
  destruct (0 <? _)%Z.
  - rewrite !count_app.
    match goal with
    | |- context [count p (firstn ?n (sort_desc ?k ?pool))] =>
        pose proof (count_firstn_le p n (sort_desc k pool)) as HF;
        rewrite (count_perm p (sort_desc_perm k pool)) in HF
    end.
    rewrite !count_app in HF. lia.
  - rewrite count_app. lia.
Qed.

(** *** The ranks written into the heap *)

Lemma set_RANK_set_RANK o k k' : set_RANK (set_RANK o k') k = set_RANK o k.
Proof. reflexivity. Qed.

(** Writing ranks changes no attribute but [RANK]. *)
Lemma write_ranks_frame h final_selection r :
  write_ranks h final_selection r = h r \/
  exists k, write_ranks h final_selection r = set_RANK (h r) k.
Proof.
  unfold write_ranks.
  generalize (enumerate final_selection) as ps. intros ps.
  assert (G : forall h',
             (h' r = h r \/ exists k, h' r = set_RANK (h r) k) ->
             let h'' := fold_left
               (fun h0 p => heap_set h0 (snd p)
                  (set_RANK (h0 (snd p)) (Z.of_nat (fst p) + 1))) ps h' in
             h'' r = h r \/ exists k, h'' r = set_RANK (h r) k).
  { induction ps as [|[i x] ps IH]; intros h' Hh'; simpl; [exact Hh'|].
    apply IH. unfold heap_set. simpl.
    destruct (Nat.eqb r x) eqn:E; [|exact Hh'].
    apply Nat.eqb_eq in E. subst x. right.
    destruct Hh' as [-> | [k ->]]; eexists; reflexivity. }
  apply G. left. reflexivity.
Qed.

Lemma write_ranks_bucket h final_selection b r :
  in_bucket (write_ranks h final_selection) b r = in_bucket h b r.
Proof.
  unfold in_bucket.
  destruct (write_ranks_frame h final_selection r) as [-> | [k ->]];
    reflexivity.
Qed.

(** *** QuotaSelector *)

Lemma apply_quota_selection_fst h l :
  fst (_apply_quota_selection h l) = quota_selection h l.
Proof. destruct l; reflexivity. Qed.

Lemma apply_quota_selection_snd h l :
  snd (_apply_quota_selection h l) = write_ranks h (quota_selection h l).
Proof. destruct l; reflexivity. Qed.

Lemma quota_selection_count h p l :
  count p (quota_selection h l) <= count p l.
Proof.
  rewrite (count_perm p (quota_selection_perm h l)).
  apply quota_steps_count.
Qed.

Ltac str_cases :=
  repeat match goal with
         | E : str_eqb _ _ = true |- _ => apply str_eqb_eq in E
         | E : str_eqb _ _ = false |- _ => apply str_eqb_neq in E
         end;
  unfold lit in *; cbn [list_ascii_of_string] in *.

Lemma bucket_of_normative o :
  bucket_of o = NormativeText <->
  CONTENT_TYPE o = lit "text_chunk" /\ KG_CLASS o <> lit "C".
Proof.
  unfold bucket_of.
  destruct (str_eqb (CONTENT_TYPE o) (lit "text_chunk")) eqn:T,
           (str_eqb (KG_CLASS o) (lit "A")) eqn:A,
           (str_eqb (KG_CLASS o) (lit "B")) eqn:B,
           (str_eqb (KG_CLASS o) (lit "C")) eqn:C;
    cbn [orb]; str_cases;
    (split; [intros E; try discriminate E; split; congruence
            |intros [E1 E2]; congruence]).
Qed.

Lemma bucket_of_non_normative o :
  bucket_of o = NonNormativeText <->
  CONTENT_TYPE o = lit "text_chunk" /\ KG_CLASS o = lit "C".
Proof.
  unfold bucket_of.
  destruct (str_eqb (CONTENT_TYPE o) (lit "text_chunk")) eqn:T,
           (str_eqb (KG_CLASS o) (lit "A")) eqn:A,
           (str_eqb (KG_CLASS o) (lit "B")) eqn:B,
           (str_eqb (KG_CLASS o) (lit "C")) eqn:C;
    cbn [orb]; str_cases;
    (split; [intros E; try discriminate E; split; congruence
            |intros [E1 E2]; congruence]).
Qed.

(** C2: the selection holds at most [KG_FINAL_K] references, each of them a
    reference of the input; whatever is counted, it holds no more of it than
    the input does, so it is never longer than the input (nothing is padded)
    and the empty input gives the empty selection. *)
Theorem quota_selection_bounded h reranked_candidates :
  let final := fst (_apply_quota_selection h reranked_candidates) in
  length final <= KG_FINAL_K /\
  (forall r, In r final -> In r reranked_candidates) /\
  (forall p, count p final <= count p reranked_candidates) /\
  length final <= length reranked_candidates /\
  _apply_quota_selection h [] = ([], h).
Proof.
  cbv zeta. rewrite apply_quota_selection_fst.
  split; [|split; [|split; [|split]]].
  - rewrite (Permutation_length (quota_selection_perm h reranked_candidates)).
    apply quota_steps_length.
  - intros r Hr. apply count_eqb_In. apply count_eqb_In in Hr.
    pose proof (quota_selection_count h (Nat.eqb r) reranked_candidates). lia.
  - intros p. apply quota_selection_count.
  - rewrite <- !count_true. apply quota_selection_count.
  - reflexivity.
Qed.

(** C3: a normative text is a text chunk whose class is not C (A, B, or
    anything else, which stands for Unknown); when the input holds at least
    [MIN_NORMATIVE_TEXT] of them, so does the selection, read in the heap as
    the call leaves it. *)
Theorem quota_min_normative h reranked_candidates :
  MIN_NORMATIVE_TEXT <=
    count (in_bucket h NormativeText) reranked_candidates ->
  let final := fst (_apply_quota_selection h reranked_candidates) in
  let h' := snd (_apply_quota_selection h reranked_candidates) in
  MIN_NORMATIVE_TEXT <= count (in_bucket h' NormativeText) final /\
  (forall r, in_bucket h' NormativeText r = true <->
             CONTENT_TYPE (h' r) = lit "text_chunk" /\
             KG_CLASS (h' r) <> lit "C") /\
  (forall r, in_bucket h' NormativeText r = in_bucket h NormativeText r).
Proof.
  intros Hmin. cbv zeta.
  rewrite apply_quota_selection_fst, apply_quota_selection_snd.
  split; [|split].
  - unfold count.
    rewrite (filter_ext _ _ (write_ranks_bucket h _ NormativeText)).
    fold (count (in_bucket h NormativeText)
                (quota_selection h reranked_candidates)).
    rewrite (count_perm _ (quota_selection_perm h reranked_candidates)).
    apply quota_steps_normative, Hmin.
  - intros r. rewrite <- bucket_of_normative. unfold in_bucket.
    destruct (bucket_of _); split; congruence.
  - intros r. apply write_ranks_bucket.
Qed.

(** C4: a non-normative text is a text chunk of class C; the selection
    never holds more than [MAX_NON_NORMATIVE_TEXT] of them. *)
Theorem quota_max_non_normative h reranked_candidates :
  let final := fst (_apply_quota_selection h reranked_candidates) in
  let h' := snd (_apply_quota_selection h reranked_candidates) in
  count (in_bucket h' NonNormativeText) final <= MAX_NON_NORMATIVE_TEXT /\
  (forall r, in_bucket h' NonNormativeText r = true <->
             CONTENT_TYPE (h' r) = lit "text_chunk" /\
             KG_CLASS (h' r) = lit "C").
Proof.
  cbv zeta.
  rewrite apply_quota_selection_fst, apply_quota_selection_snd.
  split.
  - unfold count.
    rewrite (filter_ext _ _ (write_ranks_bucket h _ NonNormativeText)).
    fold (count (in_bucket h NonNormativeText)
                (quota_selection h reranked_candidates)).
    rewrite (count_perm _ (quota_selection_perm h reranked_candidates)).
    apply quota_steps_non_normative.
  - intros r. rewrite <- bucket_of_non_normative. unfold in_bucket.
    destruct (bucket_of _); split; congruence.
Qed.

(** C10: on pairwise distinct references the selection has no duplicates. *)
Theorem quota_selection_NoDup h reranked_candidates :
  NoDup reranked_candidates ->
  NoDup (fst (_apply_quota_selection h reranked_candidates)).
Proof.
  intros Hnd. rewrite apply_quota_selection_fst.
  apply (NoDup_count_occ Nat.eq_dec). intros x.
  rewrite <- count_eqb_count_occ.
  apply (proj1 (NoDup_count_occ Nat.eq_dec _)) with (x := x) in Hnd.
  rewrite <- count_eqb_count_occ in Hnd.
  pose proof (quota_selection_count h (Nat.eqb x) reranked_candidates). lia.
Qed.

(** *** Reranker *)

Lemma enumerate_from_ranks (l : list reranked) : forall i,
  map RANK (map (fun p => set_RANK (snd p) (Z.of_nat (fst p) + 1))
                (enumerate_from i l)) =
  map (fun k => (Z.of_nat k + 1)%Z) (seq i (length l)).
Proof.
  induction l as [|x l IH]; intros i; simpl; [reflexivity|].
  rewrite IH. reflexivity.
Qed.

Lemma enumerate_from_unranked (l : list reranked) : forall i,
  map unranked (map (fun p => set_RANK (snd p) (Z.of_nat (fst p) + 1))
                    (enumerate_from i l)) =
  map unranked l.
Proof.
  induction l as [|x l IH]; intros i; simpl; [reflexivity|].
  rewrite IH. reflexivity.
Qed.

Lemma renumber_ranks l :
  map RANK (renumber l) = map (fun k => (Z.of_nat k + 1)%Z) (seq 0 (length l)).
Proof. apply enumerate_from_ranks. Qed.

Lemma renumber_unranked l : map unranked (renumber l) = map unranked l.
Proof. apply enumerate_from_unranked. Qed.

Lemma unranked_scores l :
  map RERANK_SCORE (map unranked l) = map RERANK_SCORE l.
Proof. rewrite map_map. reflexivity. Qed.

Lemma filter_tied_unranked x l :
  filter (tied x) (map unranked l) = map unranked (filter (tied x) l).
Proof.
  induction l as [|y l IH]; simpl; [reflexivity|].
  change (tied x (unranked y)) with (tied x y).
  destruct (tied x y); simpl; congruence.
Qed.

Lemma kg_rerank_unfold candidates :
  _kg_rerank_candidates candidates =
  renumber (sort_desc RERANK_SCORE (map reranked_obj candidates)).
Proof. destruct candidates; reflexivity. Qed.

Section Ordered.

(** [<] is a strict weak order on the floats that are not NaN; [ordered]
    stands for those. *)
Variable ordered : float -> Prop.
Hypothesis flt_asym :
  forall a b, ordered a -> ordered b -> flt a b = true -> flt b a = false.
Hypothesis flt_negtrans :
  forall a b c, ordered a -> ordered b -> ordered c ->
    flt a b = false -> flt b c = false -> flt a c = false.

Variable A : Type.
Variable key : A -> float.

Let dom (a : A) : Prop := ordered (key a).
Let desc (a b : A) : Prop := flt (key a) (key b) = false.
Let tie (x a : A) : bool :=
  negb (flt (key x) (key a)) && negb (flt (key a) (key x)).

Lemma insert_desc_sorted x l :
  dom x -> Forall dom l ->
  StronglySorted desc l -> StronglySorted desc (insert_desc key x l).
Proof.
  intros Dx Dl Hs. induction Hs as [|y r Hr IH Hy]; simpl.
  - constructor; constructor.
  - inversion Dl as [|y' r' Dy Dr]; subst.
    destruct (flt (key x) (key y)) eqn:E.
    + constructor; [apply IH, Dr|].
      apply (Permutation_Forall (Permutation_sym (insert_desc_perm key x r))).
      constructor; [apply flt_asym; assumption | exact Hy].
    + constructor; [constructor; assumption|].
      constructor; [exact E|].
      rewrite Forall_forall in Hy, Dr. apply Forall_forall. intros z Hz.
      apply (flt_negtrans Dx Dy (Dr z Hz) E (Hy z Hz)).
Qed.

Lemma sort_desc_sorted l :
  Forall dom l -> StronglySorted desc (sort_desc key l).
Proof.
  induction 1 as [|x r Dx Dr IH]; simpl; [constructor|].
  apply insert_desc_sorted; [exact Dx | | exact IH].
  apply (Permutation_Forall (Permutation_sym (sort_desc_perm key r))), Dr.
Qed.

Lemma insert_desc_stable v x l :
  dom v -> dom x -> Forall dom l ->
  filter (tie v) (insert_desc key x l) = filter (tie v) (x :: l).
Proof.
  intros Dv Dx. induction 1 as [|y r Dy Dr IH]; [reflexivity|].
  cbn [insert_desc]. destruct (flt (key x) (key y)) eqn:E; [|reflexivity].
  cbn [filter]. rewrite IH. cbn [filter].
  destruct (tie v x) eqn:Tx, (tie v y) eqn:Ty; try reflexivity.
  exfalso. unfold tie in Tx, Ty.
  apply andb_true_iff in Tx, Ty.
  destruct Tx as [_ Tx], Ty as [Ty _].
  apply negb_true_iff in Tx, Ty.
  rewrite (flt_negtrans Dx Dv Dy Tx Ty) in E. discriminate.
Qed.

Lemma sort_desc_stable v l :
  dom v -> Forall dom l ->
  filter (tie v) (sort_desc key l) = filter (tie v) l.
Proof.
  intros Dv. induction 1 as [|x r Dx Dr IH]; [reflexivity|].
  cbn [sort_desc]. rewrite insert_desc_stable; [|assumption..|].
  - cbn [filter]. rewrite IH. reflexivity.
  - apply (Permutation_Forall (Permutation_sym (sort_desc_perm key r))), Dr.
Qed.

End Ordered.

Lemma StronglySorted_map (A B : Type) (R : B -> B -> Prop) (f : A -> B) l :
  StronglySorted (fun a b => R (f a) (f b)) l -> StronglySorted R (map f l).
Proof.
  induction 1 as [|x l Hl IH Hx]; simpl; constructor; [exact IH|].
  apply Forall_map. exact Hx.
Qed.

(** *** Reranker: the call on a memory *)

Lemma insert_desc_map (A B : Type) (f : A -> B) (key : B -> float) x l :
  map f (insert_desc (fun a => key (f a)) x l) =
  insert_desc key (f x) (map f l).
Proof.
  induction l as [|y l IH]; simpl; [reflexivity|].
  destruct (flt (key (f x)) (key (f y))); simpl; [rewrite IH|]; reflexivity.
Qed.

Lemma sort_desc_map (A B : Type) (f : A -> B) (key : B -> float) l :
  map f (sort_desc (fun a => key (f a)) l) = sort_desc key (map f l).
Proof.
  induction l as [|x l IH]; simpl; [reflexivity|].
  rewrite insert_desc_map, IH. reflexivity.
Qed.

Lemma cell_alloc_old (m : memory) v a :
  (a < next m)%nat -> cell (snd (alloc m v)) a = cell m a.
Proof.
  intros L. simpl. destruct (Nat.eqb a (next m)) eqn:E; [|reflexivity].
  apply Nat.eqb_eq in E. lia.
Qed.

Lemma cell_store_other (m : memory) a v a' :
  a' <> a -> cell (store m a v) a' = cell m a'.
Proof.
  intros N. simpl. destruct (Nat.eqb a' a) eqn:E; [|reflexivity].
  apply Nat.eqb_eq in E. contradiction.
Qed.

Lemma cell_store_same (m : memory) a v : cell (store m a v) a = v.
Proof. simpl. rewrite Nat.eqb_refl. reflexivity. Qed.

Lemma map_cell_eq (m m' : memory) l :
  (forall a, In a l -> cell m' a = cell m a) ->
  map (cell m') l = map (cell m) l.
Proof. intros E. apply map_ext_in. exact E. Qed.

(** The loop leaves one new object for each candidate, at consecutive new
    addresses, and changes nothing else but the list it appends to. *)
Lemma rerank_loop_spec : forall refs cs (m : memory) l items,
  map (cell m) refs = map Candidate cs ->
  Forall (fun a => (a < l)%nat) refs ->
  (l < next m)%nat ->
  cell m l = PyList items ->
  exists m',
    rerank_loop m l refs = Some m' /\
    next m' = (next m + length refs)%nat /\
    cell m' l = PyList (items ++ seq (next m) (length refs)) /\
    (forall a, (a < next m)%nat -> a <> l -> cell m' a = cell m a) /\
    map (cell m') (seq (next m) (length refs)) =
      map (fun c => Object (reranked_obj c)) cs.
Proof.
  induction refs as [|a refs IH]; intros cs m l items Hc Hlt Hl Hitems.
  - destruct cs; [|discriminate]. exists m. simpl.
    rewrite app_nil_r, Nat.add_0_r. repeat split; auto.
  - destruct cs as [|c cs]; [discriminate|].
    simpl in Hc. injection Hc as Ha Hrest.
    apply Forall_cons_iff in Hlt. destruct Hlt as [Hal Hlt].
    cbn [rerank_loop]. rewrite Ha. cbn [alloc].
    set (m1 := {| next := S (next m);
                  cell := fun a0 => if Nat.eqb a0 (next m)
                                    then Object (reranked_obj c)
                                    else cell m a0 |}).
    assert (Hm1 : forall x, (x < next m)%nat -> cell m1 x = cell m x).
    { intros x Hx. apply (cell_alloc_old m (Object (reranked_obj c)) Hx). }
    rewrite (Hm1 l Hl), Hitems.
    set (m2 := store m1 l (PyList (items ++ [next m]))).
    assert (Hm2 : forall x, x <> l -> cell m2 x = cell m1 x).
    { intros x Hx. apply cell_store_other. exact Hx. }
    destruct (IH cs m2 l (items ++ [next m])) as (m' & Hrun & Hn & Hlist & Hfr & Hnew).
    + rewrite <- Hrest. apply map_cell_eq. intros x Hx.
      rewrite Forall_forall in Hlt. specialize (Hlt x Hx).
      rewrite Hm2 by lia. apply Hm1. lia.
    + exact Hlt.
    + simpl. lia.
    + apply cell_store_same.
    + exists m'. split; [exact Hrun|]. split; [rewrite Hn; simpl; lia|].
      split; [|split].
      * rewrite Hlist. simpl. rewrite <- app_assoc. reflexivity.
      * intros x Hx Nx. rewrite Hfr by (simpl; lia || exact Nx).
        rewrite Hm2 by exact Nx. apply Hm1, Hx.
      * cbn [length seq map]. f_equal; [|exact Hnew].
        rewrite Hfr by (simpl; lia). rewrite Hm2 by lia.
        unfold m1. simpl. rewrite Nat.eqb_refl. reflexivity.
Qed.

(** The ranks are written into the objects of the list and nowhere else. *)
Lemma rank_loop_spec : forall items objs k (m : memory),
  NoDup items ->
  map (cell m) items = map Object objs ->
  exists m',
    rank_loop m (enumerate_from k items) = Some m' /\
    (forall a, ~ In a items -> cell m' a = cell m a) /\
    map (cell m') items =
      map Object (map (fun p => set_RANK (snd p) (Z.of_nat (fst p) + 1))
                      (enumerate_from k objs)).
Proof.
  induction items as [|r items IH]; intros objs k m Hnd Hc.
  - destruct objs; [|discriminate]. exists m. simpl. auto.
  - destruct objs as [|o objs]; [discriminate|].
    simpl in Hc. injection Hc as Hr Hrest.
    inversion Hnd as [|r' items' Hnotin Hnd']; subst.
    cbn [enumerate_from rank_loop]. rewrite Hr.
    set (m1 := store m r (Object (set_RANK o (Z.of_nat k + 1)))).
    destruct (IH objs (S k) m1 Hnd') as (m' & Hrun & Hfr & Hnew).
    + rewrite <- Hrest. apply map_cell_eq. intros x Hx.
      apply cell_store_other. intros ->. contradiction.
    + exists m'. split; [exact Hrun|]. split.
      * intros a Ha. rewrite Hfr by (intros Hin; apply Ha; right; exact Hin).
        apply cell_store_other. intros ->. apply Ha. left. reflexivity.
      * cbn [map enumerate_from fst snd]. f_equal; [|exact Hnew].
        rewrite (Hfr r Hnotin). apply cell_store_same.
Qed.

(** The call on a memory that holds the candidates [cs] and their list:
    it returns, every address in use before the call holds what it held,
    and the returned list is new and holds new objects, which are those
    of [_kg_rerank_candidates cs]. *)
Lemma kg_rerank_mem_spec (m : memory) (candidates : ref) refs cs :
  cell m candidates = PyList refs ->
  Forall (fun a => (a < next m)%nat) refs ->
  map (cell m) refs = map Candidate cs ->
  exists out m' items,
    _kg_rerank_candidates_mem m candidates = Some (out, m') /\
    (forall a, (a < next m)%nat -> cell m' a = cell m a) /\
    (next m <= out)%nat /\
    cell m' out = PyList items /\
    Forall (fun a => (next m <= a)%nat /\ a <> out) items /\
    NoDup items /\
    map (cell m') items = map Object (_kg_rerank_candidates cs).
Proof.
  intros Hl Hlt Hc. unfold _kg_rerank_candidates_mem. rewrite Hl.
  destruct refs as [|r0 refs0] eqn:Erefs.
  { destruct cs; [|discriminate].
    exists (next m), (snd (alloc m (PyList []))), [].
    split; [reflexivity|]. split; [intros a Ha; apply cell_alloc_old, Ha|].
    split; [lia|]. split; [simpl; rewrite Nat.eqb_refl; reflexivity|].
    split; [constructor|]. split; [constructor | reflexivity]. }
  rewrite <- Erefs in *. clear Erefs r0 refs0.
  cbn [alloc].
  set (l := next m).
  set (m1 := {| next := S l;
                cell := fun a => if Nat.eqb a l then PyList [] else cell m a |}).
  assert (Hm1 : forall x, (x < l)%nat -> cell m1 x = cell m x).
  { intros x Hx. apply (cell_alloc_old m (PyList []) Hx). }
  destruct (@rerank_loop_spec refs cs m1 l []) as (m2 & Hrun & Hn & Hlist & Hfr & Hnew).
  { rewrite <- Hc. apply map_cell_eq. intros x Hx.
    rewrite Forall_forall in Hlt. apply Hm1, Hlt, Hx. }
  { exact Hlt. }
  { simpl. lia. }
  { simpl. rewrite Nat.eqb_refl. reflexivity. }
  rewrite Hrun, Hlist. cbn [app]. change (next m1) with (S l) in *.
  set (items := seq (S l) (length refs)) in *.
  set (key := fun x => read_score (cell m2 x)).
  set (sorted := sort_desc key items).
  set (m3 := store m2 l (PyList sorted)).
  assert (Hperm : Permutation sorted items) by apply sort_desc_perm.
  assert (Hin : forall x, In x sorted -> (S l <= x)%nat).
  { intros x Hx. apply (Permutation_in _ Hperm) in Hx.
    apply in_seq in Hx. lia. }
  assert (Hnd : NoDup sorted).
  { apply (Permutation_NoDup (Permutation_sym Hperm)), seq_NoDup. }
  assert (Hsorted : map (cell m3) sorted =
                    map Object (sort_desc RERANK_SCORE (map reranked_obj cs))).
  { rewrite (@map_cell_eq m2 m3 sorted).
    - unfold sorted, key.
      rewrite (sort_desc_map (cell m2) read_score items), Hnew.
      rewrite <- (map_map reranked_obj Object), <- sort_desc_map.
      reflexivity.
    - intros x Hx. apply cell_store_other. specialize (Hin x Hx). lia. }
  destruct (@rank_loop_spec sorted _ 0%nat m3 Hnd Hsorted)
    as (m4 & Hrank & Hfr4 & Hnew4).
  unfold enumerate. rewrite Hrank.
  assert (Hout : forall a, (a <= l)%nat -> cell m4 a = cell m3 a).
  { intros a Ha. apply Hfr4. intros Hx. specialize (Hin a Hx). lia. }
  exists l, m4, sorted. split; [reflexivity|].
  split; [|split; [reflexivity|split; [|split; [|split]]]].
  - intros a Ha. rewrite Hout by lia.
    unfold m3. rewrite cell_store_other by lia.
    rewrite Hfr by lia. apply Hm1, Ha.
  - rewrite Hout by lia. apply cell_store_same.
  - apply Forall_forall. intros x Hx. specialize (Hin x Hx). lia.
  - exact Hnd.
  - rewrite Hnew4, kg_rerank_unfold. reflexivity.
Qed.

(** C5: the reranker scores each candidate [similarity + adjustment] with
    the adjustment of the table and copies its other attributes; it returns
    the scored candidates, each once, ranked 1..N; whenever [<] is a strict
    weak order on the scores, as it is on floats that are not NaN, they are
    in descending score order with ties in input order; and the call changes
    no object or list that was there before it: the list it returns and the
    objects in it are new. *)
Theorem rerank_spec (candidates : list candidate) :
  let scored := map reranked_obj candidates in
  let out := _kg_rerank_candidates candidates in
  (forall c,
     RERANK_SCORE (reranked_obj c) =
       fadd (c_SIMILARITY c) (kg_boost_of (c_CONTENT_TYPE c) (c_KG_CLASS c)) /\
     KG_BOOST (reranked_obj c) =
       kg_boost_of (c_CONTENT_TYPE c) (c_KG_CLASS c) /\
     CONTENT_ID (reranked_obj c) = c_CONTENT_ID c /\
     CONTENT_TYPE (reranked_obj c) = c_CONTENT_TYPE c /\
     KG_CLASS (reranked_obj c) = c_KG_CLASS c /\
     SIMILARITY (reranked_obj c) = c_SIMILARITY c /\
     attributes (reranked_obj c) = c_passthrough c) /\
  (kg_boost_of (lit "text_chunk") (lit "A") = KG_BOOST_A /\
   kg_boost_of (lit "text_chunk") (lit "B") = KG_BOOST_B /\
   kg_boost_of (lit "text_chunk") (lit "C") = KG_PENALTY_C /\
   (forall kg_class,
      kg_class <> lit "A" -> kg_class <> lit "B" -> kg_class <> lit "C" ->
      kg_boost_of (lit "text_chunk") kg_class = KG_NEUTRAL_UNKNOWN) /\
   (forall content_type kg_class,
      content_type <> lit "text_chunk" ->
      kg_boost_of content_type kg_class = KG_NEUTRAL_UNKNOWN)) /\
  Permutation (map unranked out) (map unranked scored) /\
  map RANK out =
    map (fun k => (Z.of_nat k + 1)%Z) (seq 0 (length candidates)) /\
  (forall ordered : float -> Prop,
     (forall a b, ordered a -> ordered b ->
        flt a b = true -> flt b a = false) ->
     (forall a b c, ordered a -> ordered b -> ordered c ->
        flt a b = false -> flt b c = false -> flt a c = false) ->
     Forall (fun c => ordered (RERANK_SCORE (reranked_obj c))) candidates ->
     StronglySorted (fun a b => flt a b = false) (map RERANK_SCORE out) /\
     (forall x,
        ordered (RERANK_SCORE x) ->
        filter (tied x) (map unranked out) =
        filter (tied x) (map unranked scored))) /\
  (forall (m : memory) (l : ref) (refs : list ref),
     cell m l = PyList refs ->
     Forall (fun a => (a < next m)%nat) refs ->
     map (cell m) refs = map Candidate candidates ->
     exists l' m' items,
       _kg_rerank_candidates_mem m l = Some (l', m') /\
       (forall a, (a < next m)%nat -> cell m' a = cell m a) /\
       (next m <= l')%nat /\
       cell m' l' = PyList items /\
       Forall (fun a => (next m <= a)%nat /\ a <> l') items /\
       NoDup items /\
       map (cell m') items = map Object out).
Proof.
  cbv zeta. split; [|split; [|split; [|split; [|split]]]].
  - intros c. repeat split.
  - repeat split.
    + intros k NA NB NC. unfold kg_boost_of.
      apply str_eqb_neq in NA, NB, NC. rewrite NA, NB, NC. reflexivity.
    + intros ct k N. unfold kg_boost_of.
      apply str_eqb_neq in N. rewrite N. reflexivity.
  - rewrite kg_rerank_unfold, renumber_unranked.
    apply Permutation_map, sort_desc_perm.
  - rewrite kg_rerank_unfold, renumber_ranks.
    rewrite (Permutation_length (sort_desc_perm _ _)), length_map.
    reflexivity.
  - intros ordered flt_asym flt_negtrans Hord. rewrite kg_rerank_unfold.
    assert (Hdom : Forall (fun o => ordered (RERANK_SCORE o))
                          (map reranked_obj candidates))
      by (apply Forall_map, Hord).
    split.
    + rewrite <- unranked_scores, renumber_unranked, unranked_scores.
      apply StronglySorted_map.
      apply (@sort_desc_sorted ordered flt_asym flt_negtrans _ RERANK_SCORE
               _ Hdom).
    + intros x Dx. rewrite renumber_unranked, !filter_tied_unranked.
      f_equal.
      apply (@sort_desc_stable ordered flt_negtrans _ RERANK_SCORE x _ Dx Hdom).
  - intros m l refs Hl Hlt Hc. apply (@kg_rerank_mem_spec m l refs _ Hl Hlt Hc).
Qed.

End EngineProps.

(** ** CoverageMetrics *)

Section CoverageProps.

Variable re_search_ignorecase : str -> str -> bool.
Variable _extract_cited_content_ids : str -> list item -> list str.

Local Open Scope Z_scope.

Lemma counter_get_set d k v k' default :
  counter_get (counter_set d k v) k' default =
  if str_eqb k k' then v else counter_get d k' default.
Proof.
  induction d as [|[k0 v0] d IH]; simpl.
  - reflexivity.
  - destruct (str_eqb k0 k) eqn:E; simpl.
    + apply str_eqb_eq in E. subst k0.
      destruct (str_eqb k k'); reflexivity.
    + rewrite IH. destruct (str_eqb k0 k') eqn:E'; [|reflexivity].
      apply str_eqb_eq in E'. subst k0. apply str_eqb_neq in E.
      destruct (str_eqb k k') eqn:E''; [|reflexivity].
      apply str_eqb_eq in E''. congruence.
Qed.

Lemma counter_get_incr d k k' :
  counter_get (counter_incr d k) k' 0 =
  counter_get d k' 0 + (if str_eqb k k' then 1 else 0).
Proof.
  unfold counter_incr. rewrite counter_get_set.
  destruct (str_eqb k k') eqn:E; [|lia].
  apply str_eqb_eq in E. subst k'. reflexivity.
Qed.

Lemma counter_get_counts ks k : forall d,
  counter_get (fold_left counter_incr ks d) k 0 =
  counter_get d k 0 + occurrences k ks.
Proof.
  unfold occurrences.
  induction ks as [|k0 ks IH]; intros d; simpl; [lia|].
  rewrite IH, counter_get_incr.
  destruct (str_eqb k0 k); simpl length; lia.
Qed.

Lemma occurrences_pos k ks : 0 < occurrences k ks <-> In k ks.
Proof.
  unfold occurrences. induction ks as [|k0 ks IH]; simpl; [split; [lia|tauto]|].
  destruct (str_eqb k0 k) eqn:E; simpl length.
  - apply str_eqb_eq in E. split; [auto | lia].
  - apply str_eqb_neq in E. rewrite IH.
    split; [auto | intros [E' | Hin]; [congruence | exact Hin]].
Qed.

Lemma retrieved_kg_classes_fold retrieved_context : forall d,
  fold_left (fun d it => counter_incr d (item_kg_class it))
            retrieved_context d =
  fold_left counter_incr (map item_kg_class retrieved_context) d.
Proof.
  induction retrieved_context as [|it l IH]; intros d; simpl; auto.
Qed.

Lemma cited_kg_classes_fold cited_content_ids retrieved_context : forall d,
  fold_left
    (fun d cid =>
       match find (has_content_id cid) retrieved_context with
       | Some it => counter_incr d (item_kg_class it)
       | None => d
       end)
    cited_content_ids d =
  fold_left counter_incr (cited_classes cited_content_ids retrieved_context) d.
Proof.
  unfold cited_classes.
  induction cited_content_ids as [|cid l IH]; intros d; simpl; [reflexivity|].
  rewrite IH. destruct (find _ _); reflexivity.
Qed.

Lemma b_chunks_retrieved_pos retrieved_context :
  0 < counter_get (retrieved_kg_classes retrieved_context) (lit "B") 0 <->
  b_item_retrieved retrieved_context.
Proof.
  unfold retrieved_kg_classes, b_item_retrieved.
  rewrite retrieved_kg_classes_fold, counter_get_counts. simpl counter_get.
  rewrite Z.add_0_l, occurrences_pos, in_map_iff.
  split; intros (it & H1 & H2); exists it; auto.
Qed.

Lemma b_chunks_cited_pos answer retrieved_context :
  0 < counter_get
        (cited_kg_classes
           (_extract_cited_content_ids answer retrieved_context)
           retrieved_context) (lit "B") 0 <->
  b_item_cited _extract_cited_content_ids answer retrieved_context.
Proof.
  unfold cited_kg_classes, b_item_cited.
  rewrite cited_kg_classes_fold, counter_get_counts. simpl counter_get.
  rewrite Z.add_0_l, occurrences_pos. unfold cited_classes.
  rewrite in_flat_map. split.
  - intros (cid & Hin & Hc).
    destruct (find (has_content_id cid) retrieved_context) as [it|] eqn:F;
      [|contradiction].
    destruct Hc as [Hc | []]. exists cid, it. auto.
  - intros (cid & it & Hin & F & Hc). exists cid. split; [exact Hin|].
    rewrite F. left. exact Hc.
Qed.

(** C9: with a class-B item cited, the conditional-risk metric is 1.0 when
    the answer shows conditional language and 0.0 when it does not; with no
    class-B item cited or retrieved it is 1.0. *)
Theorem conditional_risk_spec answer retrieved_context :
  let risk :=
    kg_conditional_risk re_search_ignorecase _extract_cited_content_ids
                        answer retrieved_context in
  let cue := has_conditional_language re_search_ignorecase answer in
  (b_item_cited _extract_cited_content_ids answer retrieved_context ->
   cue = true -> risk = 1.0%Q) /\
  (b_item_cited _extract_cited_content_ids answer retrieved_context ->
   cue = false -> risk = 0.0%Q) /\
  (~ b_item_cited _extract_cited_content_ids answer retrieved_context ->
   ~ b_item_retrieved retrieved_context -> risk = 1.0%Q).
Proof.
  cbv zeta. unfold kg_conditional_risk.
  pose proof (b_chunks_cited_pos answer retrieved_context) as Hc.
  pose proof (b_chunks_retrieved_pos retrieved_context) as Hr.
  destruct (Z.ltb_spec 0
    (counter_get
       (cited_kg_classes (_extract_cited_content_ids answer retrieved_context)
          retrieved_context) (lit "B") 0)) as [Pc | Nc].
  - split; [|split].
    + intros _ ->. reflexivity.
    + intros _ ->. reflexivity.
    + intros N _. exfalso. apply N, Hc, Pc.
  - split; [|split].
    + intros B _. apply Hc in B. lia.
    + intros B _. apply Hc in B. lia.
    + intros _ N.
      destruct (Z.ltb_spec 0
        (counter_get (retrieved_kg_classes retrieved_context) (lit "B") 0))
        as [Pr | Nr]; [exfalso; apply N, Hr, Pr | reflexivity].
Qed.

End CoverageProps.

(** ** The binary64 floats *)

(** [<] is a strict weak order on the binary64 floats that are not NaN, by
    the specification of the primitive floats. *)
Section Binary64.

Import SpecFloat.

Lemma SFltb_asym x y : SFltb x y = true -> SFltb y x = false.
Proof.
  unfold SFltb.
  destruct x as [s1| s1| |s1 m1 e1], y as [s2| s2| |s2 m2 e2];
    try destruct s1; try destruct s2; simpl; try congruence;
    rewrite (Z.compare_antisym e1 e2);
    change (PosDef.Pos.compare_cont Eq m2 m1) with (Pos.compare m2 m1);
    change (PosDef.Pos.compare_cont Eq m1 m2) with (Pos.compare m1 m2);
    rewrite (Pos.compare_antisym m1 m2);
    destruct (e1 ?= e2)%Z, (m1 ?= m2)%positive; simpl; congruence.
Qed.

Lemma SFltb_negtrans x y z :
  y <> S754_nan ->
  SFltb x y = false -> SFltb y z = false -> SFltb x z = false.
Proof.
  unfold SFltb.
  destruct x as [s1| s1| |s1 m1 e1], y as [s2| s2| |s2 m2 e2],
           z as [s3| s3| |s3 m3 e3];
    try destruct s1; try destruct s2; try destruct s3; simpl;
    try congruence; intros _;
    change (PosDef.Pos.compare_cont Eq) with Pos.compare;
    destruct (Z.compare_spec e1 e2), (Z.compare_spec e2 e3),
             (Z.compare_spec e1 e3); try lia; try congruence;
    destruct (Pos.compare_spec m1 m2), (Pos.compare_spec m2 m3),
             (Pos.compare_spec m1 m3); simpl; try lia; try congruence.
Qed.

Lemma is_nan_spec x :
  PrimFloat.is_nan x = false -> FloatOps.Prim2SF x <> S754_nan.
Proof.
  unfold PrimFloat.is_nan. rewrite FloatAxioms.eqb_spec. intros E N.
  rewrite N in E. discriminate E.
Qed.

Lemma binary64_lt_asym a b :
  PrimFloat.is_nan a = false -> PrimFloat.is_nan b = false ->
  PrimFloat.ltb a b = true -> PrimFloat.ltb b a = false.
Proof. intros _ _. rewrite !FloatAxioms.ltb_spec. apply SFltb_asym. Qed.

Lemma binary64_lt_negtrans a b c :
  PrimFloat.is_nan a = false -> PrimFloat.is_nan b = false ->
  PrimFloat.is_nan c = false ->
  PrimFloat.ltb a b = false -> PrimFloat.ltb b c = false ->
  PrimFloat.ltb a c = false.
Proof.
  intros _ Nb _. rewrite !FloatAxioms.ltb_spec.
  apply SFltb_negtrans, is_nan_spec, Nb.
Qed.

(** X24: on the binary64 floats, when no score is NaN, the reranker returns
    the candidates in descending order of score, those that tie (neither
    score below the other) in the order of the input. *)
Theorem rerank_binary64_sorted (candidates : list (@candidate FloatHost)) :
  Forall (fun c : @candidate FloatHost =>
            PrimFloat.is_nan (RERANK_SCORE (reranked_obj c)) = false)
         candidates ->
  let scored := map reranked_obj candidates in
  let out := _kg_rerank_candidates candidates in
  StronglySorted (fun a b => PrimFloat.ltb a b = false)
                 (map RERANK_SCORE out) /\
  (forall x : @reranked FloatHost,
     PrimFloat.is_nan (RERANK_SCORE x) = false ->
     filter (tied x) (map unranked out) =
     filter (tied x) (map unranked scored)).
Proof.
  intros Hord. cbv zeta. rewrite kg_rerank_unfold.
  assert (Hdom : Forall (fun o : @reranked FloatHost =>
                           PrimFloat.is_nan (RERANK_SCORE o) = false)
                        (map reranked_obj candidates))
    by (apply Forall_map, Hord).
  split.
  - rewrite <- unranked_scores, renumber_unranked, unranked_scores.
    apply StronglySorted_map.
    apply (@sort_desc_sorted FloatHost
             (fun f => PrimFloat.is_nan f = false)
             binary64_lt_asym binary64_lt_negtrans _ RERANK_SCORE _ Hdom).
  - intros x Dx. rewrite renumber_unranked, !filter_tied_unranked.
    f_equal.
    apply (@sort_desc_stable FloatHost
             (fun f => PrimFloat.is_nan f = false)
             binary64_lt_negtrans _ RERANK_SCORE x _ Dx Hdom).
Qed.

End Binary64.

(** * The theorems at concrete inputs *)

Section Examples.

Local Open Scope Q_scope.

(** The reranking example of the specification: the class-A text (0.65)
    comes before the class-C text (0.40). *)
Example rerank_example :
  let out := _kg_rerank_candidates (H := FloatHost) example_candidates in
  map CONTENT_ID out = [lit "TEXT_a"; lit "TEXT_c"] /\
  map RERANK_SCORE out =
    [binary64_of_literal 0.65; binary64_of_literal 0.40] /\
  map RANK out = [1%Z; 2%Z].
Proof.
  cbv zeta. split; [reflexivity | split; [|reflexivity]].
  vm_compute. reflexivity.
Qed.

(** The scores are sums of binary64 floats: the class-B text at 0.1 scores
    0.1 + 0.05, which is above 0.15, and passes the table at 0.15. *)
Example rerank_rounding_example :
  let out := _kg_rerank_candidates (H := FloatHost) rounding_candidates in
  map CONTENT_ID out = [lit "TEXT_y"; lit "TABLE_x"] /\
  map (PrimFloat.ltb (binary64_of_literal 0.15)) (map RERANK_SCORE out) =
    [true; false].
Proof. cbv zeta. split; vm_compute; reflexivity. Qed.

Lemma clause_match_score_spec_witness :
  (depth (lit "1.4") < depth (lit "1.4.32"))%nat.
Proof.
  destruct clause_match_score_spec as (_ & Hshort & _).
  apply Hshort. reflexivity.
Defined.

(** C5, as stated, fails: of three tables with the similarities 1.0, NaN
    and 2.0 none is below the one before it or after it, so the sort, which
    asks nothing else, leaves them as they are, the one at 1.0 ahead of the
    one at 2.0.  (Python's [sort(reverse=True)] returns the same list: it
    finds the reversed list already in ascending order.) *)
Lemma rerank_sorted_counterexample :
  let out := _kg_rerank_candidates (H := FloatHost) nan_candidates in
  map CONTENT_ID out = [lit "TABLE_1"; lit "TABLE_2"; lit "TABLE_3"] /\
  map RERANK_SCORE out =
    [binary64_of_literal 1.0; PrimFloat.nan; binary64_of_literal 2.0] /\
  PrimFloat.ltb (binary64_of_literal 1.0) (binary64_of_literal 2.0) = true /\
  ~ StronglySorted (fun a b => PrimFloat.ltb a b = false)
      (map RERANK_SCORE out).
Proof.
  cbv zeta.
  assert (E : map RERANK_SCORE
                (_kg_rerank_candidates (H := FloatHost) nan_candidates) =
              [binary64_of_literal 1.0; PrimFloat.nan;
               binary64_of_literal 2.0])
    by (vm_compute; reflexivity).
  split; [vm_compute; reflexivity|]. split; [exact E|].
  split; [vm_compute; reflexivity|].
  rewrite E. intros Hs. apply StronglySorted_inv in Hs.
  destruct Hs as [_ Hf]. apply Forall_inv_tail, Forall_inv in Hf.
  vm_compute in Hf. discriminate Hf.
Qed.

Lemma rerank_spec_witness :
  StronglySorted (fun a b => PrimFloat.ltb a b = false)
    (map RERANK_SCORE
         (_kg_rerank_candidates (H := FloatHost) example_candidates)) /\
  exists l' m' items,
    _kg_rerank_candidates_mem example_memory 2%nat = Some (l', m') /\
    (forall a, (a < 3)%nat -> cell m' a = cell example_memory a) /\
    cell m' l' = PyList items /\
    map (cell m') items =
      map Object (_kg_rerank_candidates (H := FloatHost) example_candidates).
Proof.
  pose proof (@rerank_spec FloatHost example_candidates) as P.
  cbv zeta in P. destruct P as (_ & _ & _ & _ & Hsorted & Hmem).
  split.
  - apply (Hsorted (fun f => PrimFloat.is_nan f = false)
             binary64_lt_asym binary64_lt_negtrans).
    repeat constructor.
  - destruct (Hmem example_memory 2%nat [0%nat; 1%nat])
      as (l' & m' & items & Hrun & Hframe & _ & Hlist & _ & _ & Hobjs).
    + reflexivity.
    + repeat constructor.
    + reflexivity.
    + exists l', m', items. repeat split; assumption.
Defined.

Lemma quota_selection_bounded_witness : In 7%nat (seq 0 30).
Proof.
  apply (@quota_selection_bounded FloatHost example_heap (seq 0 30)).
  vm_compute. tauto.
Defined.

Lemma quota_min_normative_witness :
  (MIN_NORMATIVE_TEXT <=
   count (in_bucket
            (snd (_apply_quota_selection (H := FloatHost) example_heap (seq 0 30)))
            NormativeText)
         (fst (_apply_quota_selection (H := FloatHost) example_heap (seq 0 30))))%nat.
Proof.
  apply (@quota_min_normative FloatHost example_heap (seq 0 30)).
  vm_compute. lia.
Defined.

Lemma quota_max_non_normative_witness :
  CONTENT_TYPE (snd (_apply_quota_selection (H := FloatHost) example_heap
                       (seq 0 30)) 1%nat) = lit "text_chunk" /\
  KG_CLASS (snd (_apply_quota_selection (H := FloatHost) example_heap
                   (seq 0 30)) 1%nat) = lit "C".
Proof.
  apply (@quota_max_non_normative FloatHost example_heap (seq 0 30)).
  reflexivity.
Defined.

Lemma quota_selection_NoDup_witness :
  NoDup (fst (_apply_quota_selection (H := FloatHost) example_heap (seq 0 30))).
Proof.
  apply (@quota_selection_NoDup FloatHost example_heap (seq 0 30)).
  apply seq_NoDup.
Defined.

Lemma conditional_risk_spec_witness :
  kg_conditional_risk (fun _ _ => true) (fun _ _ => [lit "TEXT_1"])
    (lit "where fitted") example_context = 1.0.
Proof.
  destruct (@conditional_risk_spec (fun _ _ => true)
              (fun _ _ => [lit "TEXT_1"]) (lit "where fitted")
              example_context) as (Hcue & _ & _).
  apply Hcue.
  - unfold b_item_cited.
    exists (lit "TEXT_1"), (Build_item (Some (lit "TEXT_1")) (Some (lit "B"))).
    split; [left; reflexivity | split; reflexivity].
  - reflexivity.
Defined.

End Examples.

(** * Further properties *)

(** ** ClauseNormalizer: what survives normalization *)

Section NormalizerMore.

Lemma is_digit_not_dot c : is_digit c = true -> is_dot c = false.
Proof.
  intros D. destruct (is_dot c) eqn:E; [|reflexivity].
  apply is_dot_eq in E. subst c. discriminate D.
Qed.

Lemma is_digit_not_space c : is_digit c = true -> is_space c = false.
Proof.
  unfold is_digit, is_space. intros D.
  apply andb_true_iff in D. destruct D as [D1 D2].
  apply Nat.leb_le in D1, D2.
  repeat match goal with
         | |- context [(?a <=? ?b)%nat] => destruct (Nat.leb_spec a b)
         | |- context [(?a =? ?b)%nat] => destruct (Nat.eqb_spec a b)
         end; try reflexivity; lia.
Qed.

Lemma lstrip_split p l :
  exists t, l = t ++ lstrip p l /\ Forall (fun c => p c = true) t.
Proof.
  induction l as [|c r (t & E & F)]; simpl.
  - exists []. split; [reflexivity | constructor].
  - destruct (p c) eqn:P.
    + exists (c :: t). split; [simpl; congruence | constructor; assumption].
    + exists []. split; [reflexivity | constructor].
Qed.

Lemma lstrip_head p l :
  lstrip p l = [] \/ exists c u, lstrip p l = c :: u /\ p c = false.
Proof.
  induction l as [|c r IH]; simpl; [left; reflexivity|].
  destruct (p c) eqn:P; [exact IH | right; eauto].
Qed.

Lemma rstrip_split p l :
  exists t, l = rstrip p l ++ t /\ Forall (fun c => p c = true) t.
Proof.
  unfold rstrip. destruct (lstrip_split p (rev l)) as (t & E & F).
  exists (rev t). split; [|apply Forall_rev, F].
  rewrite <- rev_app_distr, <- E, rev_involutive. reflexivity.
Qed.

Lemma rstrip_last p l :
  rstrip p l = [] \/ exists u c, rstrip p l = u ++ [c] /\ p c = false.
Proof.
  unfold rstrip. destruct (lstrip_head p (rev l)) as [-> | (c & u & -> & P)].
  - left. reflexivity.
  - right. exists (rev u), c. split; [reflexivity | exact P].
Qed.

Lemma rstrip_id p u c : p c = false -> rstrip p (u ++ [c]) = u ++ [c].
Proof.
  intros P. unfold rstrip. rewrite rev_unit. simpl. rewrite P.
  simpl. rewrite rev_involutive. reflexivity.
Qed.

Lemma rstrip_keeps_head p c l :
  p c = false -> exists u, rstrip p (c :: l) = c :: u.
Proof.
  intros P. destruct (rstrip_split p (c :: l)) as (t & E & F).
  destruct (rstrip p (c :: l)) as [|c' u].
  - simpl in E. subst t. inversion F; congruence.
  - inversion E; subst. eauto.
Qed.

(** Stripping characters that are not digits keeps the digits. *)
Lemma digits_of_lstrip p l :
  (forall c, p c = true -> is_digit c = false) ->
  digits_of (lstrip p l) = digits_of l.
Proof.
  intros Hp. unfold digits_of.
  induction l as [|c r IH]; simpl; [reflexivity|].
  destruct (p c) eqn:P; [|reflexivity].
  rewrite (Hp c P). exact IH.
Qed.

Lemma digits_of_strip p l :
  (forall c, p c = true -> is_digit c = false) ->
  digits_of (strip p l) = digits_of l.
Proof.
  intros Hp. unfold strip, rstrip.
  assert (R : forall x, digits_of (rev x) = rev (digits_of x))
    by (intros x; apply filter_rev).
  rewrite R, digits_of_lstrip, R, rev_involutive by assumption.
  apply digits_of_lstrip, Hp.
Qed.

Lemma digits_of_keep l : digits_of (keep_digits_dots l) = digits_of l.
Proof.
  unfold digits_of, keep_digits_dots.
  induction l as [|c r IH]; simpl; [reflexivity|].
  destruct (is_digit c) eqn:D; simpl; [rewrite D; congruence|].
  destruct (is_dot c); simpl; [rewrite D|]; exact IH.
Qed.

Lemma digits_of_collapse l : digits_of (collapse_dots l) = digits_of l.
Proof.
  unfold digits_of.
  induction l as [|c r IH]; simpl; [reflexivity|].
  destruct (is_dot c && _) eqn:E; simpl.
  - apply andb_true_iff in E. destruct E as [E _].
    destruct (is_digit c) eqn:D; [|exact IH].
    apply is_digit_not_dot in D. congruence.
  - rewrite IH. reflexivity.
Qed.

Lemma not_space_digit c : is_space c = true -> is_digit c = false.
Proof.
  intros S. destruct (is_digit c) eqn:D; [|reflexivity].
  apply is_digit_not_space in D. congruence.
Qed.

Lemma not_dot_digit c : is_dot c = true -> is_digit c = false.
Proof.
  intros S. destruct (is_digit c) eqn:D; [|reflexivity].
  apply is_digit_not_dot in D. congruence.
Qed.

Lemma digits_of_clean clause : digits_of (clean_clause clause) = digits_of clause.
Proof.
  unfold clean_clause.
  rewrite (digits_of_strip _ _ not_dot_digit), digits_of_collapse,
    digits_of_keep.
  apply digits_of_strip, not_space_digit.
Qed.

Lemma digits1_digits d : digits1 d -> digits_of d = d.
Proof.
  unfold digits_of. induction 1 as [c Hc | c l Hc Hl IH]; simpl; rewrite Hc.
  - reflexivity.
  - rewrite IH. reflexivity.
Qed.

Lemma clause_id_has_digits r : clause_id r -> digits_of r <> [].
Proof.
  intros [d Hd | d r' Hd Hr].
  - rewrite (digits1_digits Hd). destruct Hd; discriminate.
  - unfold digits_of. rewrite filter_app. fold (digits_of d).
    rewrite (digits1_digits Hd). destruct Hd; discriminate.
Qed.

Lemma hd_dot_collapse l : hd_dot (collapse_dots l) = hd_dot l.
Proof.
  induction l as [|c r IH]; simpl; [reflexivity|].
  fold (hd_dot r).
  destruct (is_dot c) eqn:C, (hd_dot r) eqn:Hr; simpl; auto.
Qed.

Lemma collapse_dots_no_adjacent l : no_adjacent_dots (collapse_dots l) = true.
Proof.
  induction l as [|c r IH]; simpl; [reflexivity|].
  fold (hd_dot r). destruct (is_dot c && hd_dot r) eqn:E; [exact IH|].
  simpl. rewrite hd_dot_collapse, E. exact IH.
Qed.

Lemma no_adjacent_dots_app a b :
  no_adjacent_dots (a ++ b) = true ->
  no_adjacent_dots a = true /\ no_adjacent_dots b = true.
Proof.
  induction a as [|c a IH]; simpl; [auto|].
  intros H. apply andb_true_iff in H. destruct H as [H1 H2].
  destruct (IH H2) as [Ha Hb]. split; [|exact Hb].
  rewrite Ha, andb_true_r.
  destruct a as [|d a]; simpl in *; [rewrite andb_false_r; reflexivity|].
  exact H1.
Qed.

Lemma strip_no_adjacent p l :
  no_adjacent_dots l = true -> no_adjacent_dots (strip p l) = true.
Proof.
  intros H. unfold strip.
  destruct (lstrip_split p l) as (t & E & _).
  destruct (rstrip_split p (lstrip p l)) as (t' & E' & _).
  rewrite E in H. apply no_adjacent_dots_app in H. destruct H as [_ H].
  rewrite E' in H. apply no_adjacent_dots_app in H. apply H.
Qed.

(** The shape of a stripped string: empty, or between two characters that
    are not stripped. *)
Lemma strip_ends p l :
  strip p l = [] \/
  (exists c u, strip p l = c :: u /\ p c = false) /\
  (exists u c, strip p l = u ++ [c] /\ p c = false).
Proof.
  unfold strip.
  destruct (lstrip_head p l) as [-> | (c & u & E & P)]; [left; reflexivity|].
  rewrite E. right. destruct (rstrip_keeps_head p c u P) as (u' & E').
  split; [rewrite E'; eauto|].
  destruct (rstrip_last p (c :: u)) as [N | L]; [congruence | exact L].
Qed.

(** The automaton accepts every string of digits and single dots that
    neither starts nor ends with a dot. *)
Lemma match_clause_re_shape r :
  Forall digit_or_dot r ->
  no_adjacent_dots r = true ->
  (r = [] \/ exists u c, r = u ++ [c] /\ is_dot c = false) ->
  match_clause_re true r = true /\
  (hd_dot r = false -> r <> [] -> match_clause_re false r = true).
Proof.
  induction 1 as [|c r Hc Hr IH]; intros Hadj Hlast.
  - split; [reflexivity | congruence].
  - simpl in Hadj. apply andb_true_iff in Hadj. destruct Hadj as [Hcd Hadj].
    assert (Hlast' : r = [] \/ exists u x, r = u ++ [x] /\ is_dot x = false).
    { destruct Hlast as [N | (u & x & E & X)]; [discriminate|].
      destruct u as [|c' u]; simpl in E; inversion E; subst; eauto. }
    destruct (IH Hadj Hlast') as [IHt IHf].
    assert (Hdigit : is_dot c = false -> is_digit c = true).
    { intros D. unfold digit_or_dot in Hc. rewrite D, orb_false_r in Hc.
      exact Hc. }
    split.
    + simpl. destruct (is_digit c) eqn:D; [exact IHt|].
      destruct (is_dot c) eqn:C; [|specialize (Hdigit eq_refl); congruence].
      simpl in Hcd. apply negb_true_iff in Hcd. simpl.
      apply IHf; [exact Hcd|].
      intros ->. destruct Hlast as [N | (u & x & E & X)]; [discriminate|].
      destruct u as [|c' u]; simpl in E; inversion E; subst;
        [congruence | destruct u; discriminate].
    + intros Hd _. simpl in Hd. simpl. rewrite (Hdigit Hd). exact IHt.
Qed.

Lemma clean_clause_valid clause :
  clean_clause clause <> [] ->
  match_clause_re false (clean_clause clause) = true.
Proof.
  intros N.
  assert (Hadj : no_adjacent_dots (clean_clause clause) = true)
    by (apply strip_no_adjacent, collapse_dots_no_adjacent).
  pose proof (clean_clause_Forall clause) as HF.
  unfold clean_clause in *.
  destruct (strip_ends is_dot
              (collapse_dots (keep_digits_dots (strip is_space clause))))
    as [E | [(c & u & E & P) L]]; [contradiction|].
  apply (match_clause_re_shape HF Hadj); [right; exact L | | exact N].
  rewrite E. exact P.
Qed.

Lemma has_digit_digits_of l : has_digit l = false <-> digits_of l = [].
Proof.
  unfold has_digit, digits_of.
  induction l as [|c r IH]; simpl; [tauto|].
  destruct (is_digit c); simpl; [split; discriminate | exact IH].
Qed.

(** X1: the normalizer fails exactly on the strings that hold no digit. *)
Theorem normalize_clause_none_iff clause :
  _normalize_clause clause = None <-> has_digit clause = false.
Proof.
  rewrite normalize_clause_unfold, has_digit_digits_of,
    <- digits_of_clean.
  destruct (match_clause_re false (clean_clause clause)) eqn:M.
  - split; [discriminate|]. intros D. exfalso.
    apply (clause_id_has_digits
             (proj1 (match_clause_re_sound (clean_clause_Forall clause)) M)).
    exact D.
  - split; [|reflexivity]. intros _.
    destruct (clean_clause clause) as [|c u] eqn:E; [reflexivity|].
    rewrite <- E in M. rewrite clean_clause_valid in M; [discriminate|].
    rewrite E. discriminate.
Qed.

(** X2: normalization keeps the digits of its input, in their order. *)
Theorem normalize_clause_digits clause r :
  _normalize_clause clause = Some r -> digits_of r = digits_of clause.
Proof.
  rewrite normalize_clause_unfold.
  destruct (match_clause_re false (clean_clause clause)); [|discriminate].
  intros E. inversion E. apply digits_of_clean.
Qed.

Lemma digits1_shape d :
  digits1 d ->
  Forall digit_or_dot d /\
  (forall rest, no_adjacent_dots (d ++ rest) = no_adjacent_dots rest) /\
  (exists c u, d = c :: u /\ is_digit c = true) /\
  (exists u c, d = u ++ [c] /\ is_digit c = true).
Proof.
  induction 1 as [c Hc | c l Hc Hl (IHf & IHa & IHh & u & x & E & X)].
  - split; [|split; [|split]].
    + constructor; [unfold digit_or_dot; rewrite Hc; reflexivity|constructor].
    + intros rest. simpl. rewrite (is_digit_not_dot _ Hc). reflexivity.
    + eauto.
    + exists [], c. auto.
  - split; [|split; [|split]].
    + constructor; [unfold digit_or_dot; rewrite Hc; reflexivity | exact IHf].
    + intros rest. simpl. rewrite (is_digit_not_dot _ Hc). apply IHa.
    + eauto.
    + exists (c :: u), x. subst l. auto.
Qed.

Lemma clause_id_shape r :
  clause_id r ->
  Forall digit_or_dot r /\
  no_adjacent_dots r = true /\
  (exists c u, r = c :: u /\ is_digit c = true) /\
  (exists u c, r = u ++ [c] /\ is_digit c = true).
Proof.
  induction 1 as [d Hd | d r Hd Hr (IHf & IHa & (c & u & Eh & Dh) & v & x & El & Dl)].
  - destruct (digits1_shape Hd) as (F & A & Hh & Hl).
    split; [exact F | split; [|split; assumption]].
    rewrite <- (app_nil_r d), A. reflexivity.
  - destruct (digits1_shape Hd) as (F & A & (c0 & u0 & E0 & D0) & _).
    split; [|split; [|split]].
    + apply Forall_app. split; [exact F|].
      constructor; [reflexivity | exact IHf].
    + rewrite A. simpl. rewrite IHa, Eh. simpl.
      rewrite (is_digit_not_dot _ Dh). reflexivity.
    + exists c0, (u0 ++ "."%char :: r). subst d. auto.
    + exists (d ++ "."%char :: v), x. split; [|exact Dl].
      rewrite <- app_assoc. simpl. congruence.
Qed.

Lemma keep_digits_dots_id l :
  Forall digit_or_dot l -> keep_digits_dots l = l.
Proof.
  unfold keep_digits_dots.
  induction 1 as [|c r Hc Hr IH]; simpl; [reflexivity|].
  unfold digit_or_dot in Hc. rewrite Hc, IH. reflexivity.
Qed.

Lemma collapse_dots_id l : no_adjacent_dots l = true -> collapse_dots l = l.
Proof.
  induction l as [|c r IH]; simpl; [reflexivity|].
  fold (hd_dot r). intros H. apply andb_true_iff in H. destruct H as [H1 H2].
  apply negb_true_iff in H1. rewrite H1, (IH H2). reflexivity.
Qed.

Lemma strip_id p c u v x :
  p c = false -> p x = false -> c :: u = v ++ [x] ->
  strip p (c :: u) = c :: u.
Proof.
  intros Pc Px E. unfold strip. simpl. rewrite Pc, E.
  apply rstrip_id, Px.
Qed.

(** Normalized clause ids are fixed points of the normalizer. *)
Lemma normalize_clause_fixed r : clause_id r -> _normalize_clause r = Some r.
Proof.
  intros Hid.
  destruct (clause_id_shape Hid) as (F & A & (c & u & Eh & Dh) & v & x & El & Dl).
  assert (C : clean_clause r = r).
  { unfold clean_clause. subst r.
    rewrite (@strip_id is_space _ _ _ _ (is_digit_not_space _ Dh)
               (is_digit_not_space _ Dl) El).
    rewrite (keep_digits_dots_id F), (collapse_dots_id _ A).
    apply (@strip_id is_dot _ _ _ _ (is_digit_not_dot _ Dh)
             (is_digit_not_dot _ Dl) El). }
  rewrite normalize_clause_unfold, C, (match_clause_re_complete Hid).
  reflexivity.
Qed.

(** X3: normalization is idempotent: a normalized clause normalizes to
    itself. *)
Theorem normalize_clause_idempotent clause r :
  _normalize_clause clause = Some r -> _normalize_clause r = Some r.
Proof.
  rewrite normalize_clause_unfold.
  destruct (match_clause_re false (clean_clause clause)) eqn:M;
    [|discriminate].
  intros E. inversion E. subst r.
  apply normalize_clause_fixed.
  apply (match_clause_re_sound (clean_clause_Forall clause)), M.
Qed.

End NormalizerMore.

(** ** ClauseMatcher: symmetry, extremes and the pass mark *)

Section MatcherMore.

Local Open Scope Q_scope.

Lemma str_eqb_sym a b : str_eqb a b = str_eqb b a.
Proof.
  destruct (str_eqb a b) eqn:E.
  - apply str_eqb_eq in E. subst b. symmetry. apply str_eqb_refl.
  - apply str_eqb_neq in E. symmetry. apply str_eqb_neq. congruence.
Qed.

Lemma strict_prefix_asym a b :
  strict_prefix a b = true -> strict_prefix b a = false.
Proof.
  intros H. destruct (strict_prefix b a) eqn:E; [|reflexivity].
  apply strict_prefix_shorter in H, E. lia.
Qed.

Lemma strict_prefix_hd a b :
  strict_prefix a b = true -> a <> [] -> hd [] a = hd [] b.
Proof.
  destruct a as [|x a], b as [|y b]; simpl; try congruence.
  intros H _. apply andb_true_iff in H. destruct H as [H _].
  apply str_eqb_eq, H.
Qed.

Lemma strict_prefix_irrefl a : strict_prefix a a = false.
Proof.
  destruct (strict_prefix a a) eqn:E; [|reflexivity].
  apply strict_prefix_shorter in E. lia.
Qed.

Lemma depth_score_pass d : 0.75 <= depth_score d <-> (3 <= d)%nat.
Proof.
  destruct d as [|[|[|d]]]; simpl; split; intros H;
    try lia; try apply Qle_refl; exfalso; apply H; reflexivity.
Qed.

Lemma depth_score_mid d : depth_score d <> 1.0 /\ depth_score d <> 0.0.
Proof. destruct d as [|[|[|d]]]; simpl; split; discriminate. Qed.

(** X4: the score does not depend on which of the two clauses is the
    cited one. *)
Theorem clause_match_score_sym cited expected :
  _compute_clause_match_score cited expected =
  _compute_clause_match_score expected cited.
Proof.
  rewrite !compute_score_refines. unfold ClauseMatcher.
  rewrite (str_eqb_sym expected cited).
  destruct (str_eqb cited expected); [reflexivity|].
  rewrite (str_eqb_sym (hd [] (split "." expected))).
  destruct (strict_prefix (split "." cited) (split "." expected)) eqn:P.
  - rewrite (strict_prefix_asym _ _ P). reflexivity.
  - reflexivity.
Qed.

(** X5: the score is 1.0 exactly on equal clauses and 0.0 exactly on
    clauses whose first dotted segments differ. *)
Theorem clause_match_score_extremes cited expected :
  (_compute_clause_match_score cited expected = 1.0 <-> cited = expected) /\
  (_compute_clause_match_score cited expected = 0.0 <->
   hd [] (split "." cited) <> hd [] (split "." expected)).
Proof.
  rewrite compute_score_refines. unfold ClauseMatcher.
  destruct (str_eqb cited expected) eqn:E.
  - apply str_eqb_eq in E. subst expected.
    split; split; auto; try discriminate. intros N. congruence.
  - apply str_eqb_neq in E.
    destruct (strict_prefix (split "." cited) (split "." expected)) eqn:P.
    { pose proof (depth_score_mid (depth cited)) as [M1 M0].
      apply strict_prefix_hd in P; [|apply split_not_nil].
      split; split; intros; congruence. }
    destruct (strict_prefix (split "." expected) (split "." cited)) eqn:P'.
    { pose proof (depth_score_mid (depth expected)) as [M1 M0].
      apply strict_prefix_hd in P'; [|apply split_not_nil].
      split; split; intros; congruence. }
    destruct (str_eqb (hd [] (split "." cited)) (hd [] (split "." expected)))
      eqn:Hh.
    + apply str_eqb_eq in Hh.
      split; split; intros; try discriminate; congruence.
    + apply str_eqb_neq in Hh.
      split; split; intros; try discriminate; congruence.
Qed.

(** X6: a pair of clauses reaches the pass mark 0.75 exactly when the
    clauses are equal or one is a dotted prefix of the other with at least
    three segments. *)
Theorem clause_match_score_pass cited expected :
  0.75 <= _compute_clause_match_score cited expected <->
  cited = expected \/
  (strict_prefix (split "." cited) (split "." expected) = true /\
   (3 <= depth cited)%nat) \/
  (strict_prefix (split "." expected) (split "." cited) = true /\
   (3 <= depth expected)%nat).
Proof.
  rewrite compute_score_refines. unfold ClauseMatcher.
  destruct (str_eqb cited expected) eqn:E.
  - apply str_eqb_eq in E. split; [auto | intros _; discriminate].
  - apply str_eqb_neq in E.
    destruct (strict_prefix (split "." cited) (split "." expected)) eqn:P.
    { rewrite depth_score_pass, (strict_prefix_asym _ _ P).
      split; [auto | intros [N | [[_ H] | [N _]]]; congruence]. }
    destruct (strict_prefix (split "." expected) (split "." cited)) eqn:P'.
    { rewrite depth_score_pass.
      split; [auto | intros [N | [[N _] | [_ H]]]; congruence]. }
    split.
    + intros H. exfalso.
      destruct (str_eqb _ _); apply H; reflexivity.
    + intros [N | [[N _] | [N _]]]; congruence.
Qed.

End MatcherMore.

(** ** CitationGrader: the verdict, its range and extra citations *)

Section GraderMore.

Local Open Scope Q_scope.

(** The four ways through the grader. *)
Lemma grade_shape cited_clauses expected_clause :
  let g := _grade_citation_accuracy cited_clauses expected_clause in
  (cited_clauses = [] /\
   citation_accuracy g = 0.0 /\ correct_clause_ref g = false) \/
  (cited_clauses <> [] /\ no_expected expected_clause /\
   citation_accuracy g = 0.5 /\ correct_clause_ref g = false) \/
  (exists e, expected_clause = Some e /\ parse_expected e <> [] /\
   cited_clauses <> [] /\ normalize_cited cited_clauses = [] /\
   citation_accuracy g = 0.0 /\ correct_clause_ref g = false) \/
  (exists e s ss, expected_clause = Some e /\ parse_expected e <> [] /\
   normalize_cited cited_clauses <> [] /\
   match_scores (normalize_cited cited_clauses) (parse_expected e) = s :: ss /\
   citation_accuracy g = py_max s ss /\
   correct_clause_ref g = Qle_bool 0.75 (py_max s ss)).
Proof.
  cbv zeta.
  destruct cited_clauses as [|c cs]; [left; auto|]. right.
  assert (Nc : c :: cs <> []) by discriminate.
  destruct expected_clause as [e|]; [|left; repeat split; auto].
  destruct (parse_expected e) as [|x xs] eqn:P.
  { left. destruct e as [|e0 e]; [repeat split; auto|].
    unfold _grade_citation_accuracy. rewrite P. repeat split; auto. }
  right.
  assert (Ne : parse_expected e <> []) by (rewrite P; discriminate).
  destruct (normalize_cited (c :: cs)) as [|y ys] eqn:N.
  { left. exists e. destruct e as [|e0 e]; [discriminate P|].
    unfold _grade_citation_accuracy. rewrite P, N.
    repeat split; auto; discriminate. }
  right.
  assert (Nn : normalize_cited (c :: cs) <> []) by (rewrite N; discriminate).
  destruct (grade_scored (c :: cs) e Nn Ne) as (s & ss & Hms & Hacc & Hok).
  exists e, s, ss. rewrite N in Hms.
  repeat split; auto; discriminate.
Qed.

Lemma match_scores_level cited_set expected_set m :
  expected_set <> [] ->
  In m (match_scores cited_set expected_set) ->
  exists cited expected,
    In cited cited_set /\ In expected expected_set /\
    m = _compute_clause_match_score cited expected /\
    forall e, In e expected_set ->
              _compute_clause_match_score cited e <= m.
Proof.
  intros Ne Hin. unfold match_scores in Hin.
  apply in_map_iff in Hin. destruct Hin as (cited & <- & Hc).
  destruct (best_match_is_maximum cited Ne) as [Hb Hall].
  apply in_map_iff in Hb. destruct Hb as (expected & Hb & He).
  exists cited, expected. repeat split; auto.
  intros e Hin. apply Hall, in_map, Hin.
Qed.

Lemma score_levels_bounds a : In a score_levels -> 0.0 <= a /\ a <= 1.0.
Proof.
  unfold score_levels. simpl.
  intros [<-|[<-|[<-|[<-|[<-|[<-|[]]]]]]]; split; discriminate.
Qed.

Lemma grade_accuracy_in_levels cited_clauses expected_clause :
  In (citation_accuracy
        (_grade_citation_accuracy cited_clauses expected_clause))
     score_levels.
Proof.
  destruct (grade_shape cited_clauses expected_clause)
    as [(_ & -> & _) | [(_ & _ & -> & _) |
        [(e & _ & _ & _ & _ & -> & _) |
         (e & s & ss & -> & Ne & Nn & Hms & -> & _)]]];
    unfold score_levels; simpl; auto 7.
  destruct (py_max_is_maximum s ss) as [Hin _]. rewrite <- Hms in Hin.
  destruct (match_scores_level _ _ Ne Hin) as (c & x & _ & _ & -> & _).
  apply score_values.
Qed.

(** X7: the accuracy is always one of the six score levels, so it lies
    between 0 and 1. *)
Theorem grade_accuracy_levels cited_clauses expected_clause :
  let a := citation_accuracy
             (_grade_citation_accuracy cited_clauses expected_clause) in
  In a score_levels /\ 0.0 <= a /\ a <= 1.0.
Proof.
  cbv zeta. split; [apply grade_accuracy_in_levels|].
  apply score_levels_bounds, grade_accuracy_in_levels.
Qed.

(** X8: an answer is graded correct exactly when one of its normalized
    citations reaches the pass mark against one of the normalized expected
    clauses. *)
Theorem grade_correct_iff cited_clauses expected_clause :
  correct_clause_ref
    (_grade_citation_accuracy cited_clauses (Some expected_clause)) = true <->
  exists cited expected,
    In cited (normalize_cited cited_clauses) /\
    In expected (parse_expected expected_clause) /\
    0.75 <= _compute_clause_match_score cited expected.
Proof.
  destruct (grade_shape cited_clauses (Some expected_clause))
    as [(-> & _ & Hc) | [(_ & Hn & _ & Hc) |
        [(e & E & _ & _ & Hn & _ & Hc) |
         (e & s & ss & E & Ne & Nn & Hms & Hacc & Hc)]]];
    rewrite Hc.
  - split; [discriminate|]. intros (c & x & [] & _).
  - simpl in Hn. rewrite Hn.
    split; [discriminate|]. intros (c & x & _ & [] & _).
  - rewrite Hn. split; [discriminate|]. intros (c & x & [] & _).
  - inversion E; subst e. rewrite Qle_bool_iff.
    destruct (py_max_is_maximum s ss) as [Hin Hall]. rewrite <- Hms in *.
    split.
    + intros Hp.
      destruct (match_scores_level _ _ Ne Hin) as (c & x & Hc' & Hx & Em & _).
      exists c, x. rewrite <- Em. auto.
    + intros (c & x & Hc' & Hx & Hp).
      eapply Qle_trans; [exact Hp|].
      eapply Qle_trans; [|apply Hall; unfold match_scores;
                           apply in_map with (f := fun cited =>
                             fst (best_match cited
                                    (parse_expected expected_clause)));
                           exact Hc'].
      apply (best_match_is_maximum c Ne), in_map, Hx.
Qed.

Lemma normalize_cited_app a b :
  normalize_cited (a ++ b) = normalize_cited a ++ normalize_cited b.
Proof.
  unfold normalize_cited, truthy. rewrite map_app, flat_map_app. reflexivity.
Qed.

(** X9: citing more never lowers the accuracy. *)
Theorem grade_more_citations cited_clauses extra expected_clause :
  citation_accuracy (_grade_citation_accuracy cited_clauses expected_clause)
  <= citation_accuracy
       (_grade_citation_accuracy (cited_clauses ++ extra) expected_clause).
Proof.
  pose proof (proj1 (score_levels_bounds
    (grade_accuracy_in_levels (cited_clauses ++ extra) expected_clause)))
    as Hpos.
  destruct (grade_shape cited_clauses expected_clause)
    as [(_ & -> & _) | [(Nc & Hn & -> & _) |
        [(e & _ & _ & _ & _ & -> & _) |
         (e & s & ss & E & Ne & Nn & Hms & -> & _)]]];
    try exact Hpos.
  - assert (Nc' : cited_clauses ++ extra <> [])
      by (destruct cited_clauses; [congruence | discriminate]).
    destruct (grade_shape (cited_clauses ++ extra) expected_clause)
      as [(N & _) | [(_ & _ & -> & _) |
          [(e & E & Ne & _) | (e & s & ss & E & Ne & _)]]].
    + contradiction.
    + apply Qle_refl.
    + subst expected_clause. contradiction.
    + subst expected_clause. contradiction.
  - assert (Nn' : normalize_cited (cited_clauses ++ extra) <> []).
    { rewrite normalize_cited_app.
      destruct (normalize_cited cited_clauses); [contradiction | discriminate]. }
    destruct (grade_shape (cited_clauses ++ extra) expected_clause)
      as [(N & _) | [(_ & Hn & _) |
          [(e' & E' & _ & _ & N & _) |
           (e' & s' & ss' & E' & _ & _ & Hms' & -> & _)]]].
    + rewrite N in Nn'. contradiction Nn'. reflexivity.
    + subst expected_clause. contradiction.
    + contradiction.
    + assert (e' = e) by congruence. subst e'.
      destruct (py_max_is_maximum s ss) as [Hin _].
      destruct (py_max_is_maximum s' ss') as [_ Hall].
      apply Hall. rewrite <- Hms', <- Hms in *.
      unfold match_scores in *. rewrite normalize_cited_app, map_app.
      apply in_or_app. left. exact Hin.
Qed.

Lemma score_levels_eq a b :
  In a score_levels -> In b score_levels -> a == b -> a = b.
Proof.
  unfold score_levels. simpl.
  intros [<-|[<-|[<-|[<-|[<-|[<-|[]]]]]]] [<-|[<-|[<-|[<-|[<-|[<-|[]]]]]]] E;
    try reflexivity; discriminate E.
Qed.

Lemma truthy_In xs c :
  In c (truthy xs) <-> In (Some c) xs /\ c <> [].
Proof.
  unfold truthy. rewrite in_flat_map. split.
  - intros (x & Hx & Hc). destruct x as [[|a r]|]; try contradiction.
    destruct Hc as [<- | []]. split; [exact Hx | discriminate].
  - intros [Hx Hc]. exists (Some c). split; [exact Hx|].
    destruct c; [contradiction | left; reflexivity].
Qed.

Lemma normalize_cited_In cited_clauses c :
  In c (normalize_cited cited_clauses) <->
  exists x, In x cited_clauses /\ _normalize_clause x = Some c /\ c <> [].
Proof.
  unfold normalize_cited. rewrite truthy_In, in_map_iff. split.
  - intros [(x & E & Hx) Hc]. eauto.
  - intros (x & Hx & E & Hc). eauto.
Qed.

Lemma match_scores_le cited_set cited_set' expected_set s ss s' ss' :
  (forall c, In c cited_set -> In c cited_set') ->
  match_scores cited_set expected_set = s :: ss ->
  match_scores cited_set' expected_set = s' :: ss' ->
  py_max s ss <= py_max s' ss'.
Proof.
  intros Hsub Hms Hms'.
  destruct (py_max_is_maximum s ss) as [Hin _].
  destruct (py_max_is_maximum s' ss') as [_ Hall].
  apply Hall. rewrite <- Hms', <- Hms in *. unfold match_scores in *.
  apply in_map_iff in Hin. destruct Hin as (c & <- & Hc).
  apply in_map with (f := fun cited => fst (best_match cited expected_set)).
  apply Hsub, Hc.
Qed.

Lemma grade_citation_set_both cited_clauses cited_clauses' expected_clause :
  (forall x, In x cited_clauses <-> In x cited_clauses') ->
  citation_accuracy (_grade_citation_accuracy cited_clauses expected_clause) =
  citation_accuracy (_grade_citation_accuracy cited_clauses' expected_clause)
  /\
  correct_clause_ref (_grade_citation_accuracy cited_clauses expected_clause) =
  correct_clause_ref (_grade_citation_accuracy cited_clauses' expected_clause).
Proof.
  intros Hset.
  assert (Hnil : cited_clauses = [] <-> cited_clauses' = []).
  { split; intros ->.
    - destruct cited_clauses' as [|x l]; [reflexivity|].
      destruct (proj2 (Hset x) (or_introl eq_refl)).
    - destruct cited_clauses as [|x l]; [reflexivity|].
      destruct (proj1 (Hset x) (or_introl eq_refl)). }
  assert (Hn : forall c, In c (normalize_cited cited_clauses) <->
                         In c (normalize_cited cited_clauses')).
  { intros c. rewrite !normalize_cited_In.
    split; intros (x & Hx & E); exists x; split; auto; apply Hset, Hx. }
  assert (Hnn : normalize_cited cited_clauses = [] <->
                normalize_cited cited_clauses' = []).
  { split; intros E.
    - destruct (normalize_cited cited_clauses') as [|x l]; [reflexivity|].
      rewrite E in Hn. destruct (proj2 (Hn x) (or_introl eq_refl)).
    - destruct (normalize_cited cited_clauses) as [|x l]; [reflexivity|].
      rewrite E in Hn. destruct (proj1 (Hn x) (or_introl eq_refl)). }
  pose proof (grade_accuracy_in_levels cited_clauses expected_clause) as L.
  pose proof (grade_accuracy_in_levels cited_clauses' expected_clause) as L'.
  destruct (grade_shape cited_clauses expected_clause)
    as [(N & Ha & Hc) | [(N & Hx & Ha & Hc) |
        [(e & E & Ne & N & Nn & Ha & Hc) |
         (e & s & ss & E & Ne & Nn & Hms & Ha & Hc)]]];
    destruct (grade_shape cited_clauses' expected_clause)
      as [(N' & Ha' & Hc') | [(N' & Hx' & Ha' & Hc') |
          [(e' & E' & Ne' & N' & Nn' & Ha' & Hc') |
           (e' & s' & ss' & E' & Ne' & Nn' & Hms' & Ha' & Hc')]]];
    try (split; congruence);
    try (exfalso; tauto);
    try (exfalso; subst expected_clause; simpl in *; congruence);
    try (exfalso; subst cited_clauses; apply Nn', Hnn; reflexivity);
    try (exfalso; subst cited_clauses'; apply Nn, Hnn; reflexivity).
  assert (e' = e) by congruence. subst e'.
  assert (Eq : py_max s ss = py_max s' ss').
  { rewrite Ha in L. rewrite Ha' in L'.
    apply (score_levels_eq L L'). apply Qle_antisym.
    - apply (match_scores_le _ _ _ (fun c => proj1 (Hn c)) Hms Hms').
    - apply (match_scores_le _ _ _ (fun c => proj2 (Hn c)) Hms' Hms). }
  rewrite Ha, Ha', Hc, Hc', Eq. split; reflexivity.
Qed.

(** X21: the grade reads the citations as a set: two citation lists with
    the same members, in any order and with any repetitions, get the same
    accuracy and the same verdict. *)
Theorem grade_citation_set cited_clauses cited_clauses' expected_clause :
  (forall x, In x cited_clauses <-> In x cited_clauses') ->
  let g := _grade_citation_accuracy cited_clauses expected_clause in
  let g' := _grade_citation_accuracy cited_clauses' expected_clause in
  citation_accuracy g = citation_accuracy g' /\
  correct_clause_ref g = correct_clause_ref g'.
Proof.
  intros Hset. cbv zeta. apply grade_citation_set_both, Hset.
Qed.

End GraderMore.

(** ** CoverageMetrics: the counters and the discrete metrics *)

Section CoverageMore.

Local Open Scope Z_scope.

Lemma occurrences_In k ks : 0 < occurrences k ks <-> In k ks.
Proof.
  unfold occurrences.
  induction ks as [|k0 ks IH]; simpl; [split; [lia | tauto]|].
  destruct (str_eqb k0 k) eqn:E; simpl length.
  - apply str_eqb_eq in E. split; [auto | lia].
  - apply str_eqb_neq in E. rewrite IH.
    split; [auto | intros [E' | Hin]; [congruence | exact Hin]].
Qed.

Lemma counter_total_acc d : forall a,
  fold_left (fun acc (kv : str * Z) => acc + snd kv) d a =
  a + counter_total d.
Proof.
  unfold counter_total.
  induction d as [|[k v] d IH]; intros a; simpl; [lia|].
  rewrite (IH (a + v)), (IH v). lia.
Qed.

Lemma counter_total_cons k v d :
  counter_total ((k, v) :: d) = v + counter_total d.
Proof. unfold counter_total at 1. simpl. apply counter_total_acc. Qed.

Lemma counter_total_set d k v :
  counter_total (counter_set d k v) =
  counter_total d - counter_get d k 0 + v.
Proof.
  induction d as [|[k0 v0] d IH]; simpl.
  - rewrite counter_total_cons. unfold counter_total. simpl. lia.
  - destruct (str_eqb k0 k); rewrite !counter_total_cons; [lia|].
    rewrite IH. lia.
Qed.

Lemma counter_total_incr d k :
  counter_total (counter_incr d k) = counter_total d + 1.
Proof. unfold counter_incr. rewrite counter_total_set. lia. Qed.

Lemma counter_total_counts ks : forall d,
  counter_total (fold_left counter_incr ks d) =
  counter_total d + Z.of_nat (length ks).
Proof.
  induction ks as [|k ks IH]; intros d; simpl length; simpl fold_left;
    [lia|].
  rewrite IH, counter_total_incr. lia.
Qed.

Lemma occurrences_nonneg k ks : 0 <= occurrences k ks.
Proof. unfold occurrences. lia. Qed.

Lemma occurrences_perm k l l' :
  Permutation l l' -> occurrences k l = occurrences k l'.
Proof.
  intros P. unfold occurrences. f_equal.
  induction P as [|x l l' _ IH|x y l|l l' l'' _ IH1 _ IH2]; simpl;
    try reflexivity.
  - destruct (str_eqb x k); simpl; congruence.
  - destruct (str_eqb x k), (str_eqb y k); reflexivity.
  - congruence.
Qed.

Lemma retrieved_count ctx k :
  counter_get (retrieved_kg_classes ctx) k 0 =
  occurrences k (map item_kg_class ctx).
Proof.
  unfold retrieved_kg_classes.
  rewrite retrieved_kg_classes_fold, counter_get_counts. reflexivity.
Qed.

Lemma cited_count ids ctx k :
  counter_get (cited_kg_classes ids ctx) k 0 =
  occurrences k (cited_classes ids ctx).
Proof.
  unfold cited_kg_classes.
  rewrite cited_kg_classes_fold, counter_get_counts. reflexivity.
Qed.

Lemma cited_total ids ctx :
  counter_total (cited_kg_classes ids ctx) =
  Z.of_nat (length (cited_classes ids ctx)).
Proof.
  unfold cited_kg_classes.
  rewrite cited_kg_classes_fold, counter_total_counts. reflexivity.
Qed.

(** X10: the class counters count.  A counter read at a class gives the
    number of retrieved items of that class (of cited ids that resolve to an
    item of that class), an absent class reads 0, and the values sum to the
    number of items (of cited ids that resolve). *)
Theorem kg_class_counters ids ctx k :
  counter_get (retrieved_kg_classes ctx) k 0 =
    occurrences k (map item_kg_class ctx) /\
  counter_total (retrieved_kg_classes ctx) = Z.of_nat (length ctx) /\
  counter_get (cited_kg_classes ids ctx) k 0 =
    occurrences k (cited_classes ids ctx) /\
  counter_total (cited_kg_classes ids ctx) =
    Z.of_nat (length (cited_classes ids ctx)) /\
  (length (cited_classes ids ctx) <= length ids)%nat.
Proof.
  split; [apply retrieved_count|]. split; [|split; [apply cited_count|]].
  - unfold retrieved_kg_classes.
    rewrite retrieved_kg_classes_fold, counter_total_counts, length_map.
    reflexivity.
  - split; [apply cited_total|].
    unfold cited_classes. induction ids as [|cid ids IH]; simpl; [lia|].
    rewrite length_app. destruct (find _ ctx); simpl; lia.
Qed.

Lemma cited_classes_In ids ctx k :
  In k (cited_classes ids ctx) <->
  exists cid it, In cid ids /\ find (has_content_id cid) ctx = Some it /\
                 item_kg_class it = k.
Proof.
  unfold cited_classes. rewrite in_flat_map. split.
  - intros (cid & Hin & Hc).
    destruct (find (has_content_id cid) ctx) as [it|] eqn:F; [|contradiction].
    destruct Hc as [Hc | []]. exists cid, it. auto.
  - intros (cid & it & Hin & F & Hc). exists cid. split; [exact Hin|].
    rewrite F. left. exact Hc.
Qed.

Lemma cited_classes_perm ids ids' ctx :
  Permutation ids ids' ->
  Permutation (cited_classes ids ctx) (cited_classes ids' ctx).
Proof.
  intros P. unfold cited_classes.
  induction P as [|x l l' _ IH|x y l|l l' l'' _ IH1 _ IH2]; simpl.
  - reflexivity.
  - apply Permutation_app_head, IH.
  - rewrite !app_assoc. apply Permutation_app_tail, Permutation_app_comm.
  - etransitivity; eassumption.
Qed.

Lemma occurrences_app k a b :
  occurrences k (a ++ b) = occurrences k a + occurrences k b.
Proof. unfold occurrences. rewrite filter_app, length_app. lia. Qed.

Lemma retrieved_class_pos ctx k :
  0 < counter_get (retrieved_kg_classes ctx) k 0 <->
  exists it, In it ctx /\ item_kg_class it = k.
Proof.
  rewrite retrieved_count, occurrences_In, in_map_iff.
  split; intros (it & H1 & H2); exists it; auto.
Qed.

Lemma cited_class_pos ids ctx k :
  0 < counter_get (cited_kg_classes ids ctx) k 0 <->
  exists cid it, In cid ids /\ find (has_content_id cid) ctx = Some it /\
                 item_kg_class it = k.
Proof. rewrite cited_count, occurrences_In. apply cited_classes_In. Qed.

Lemma cited_total_pos ids ctx :
  0 < counter_total (cited_kg_classes ids ctx) <->
  exists cid it, In cid ids /\ find (has_content_id cid) ctx = Some it.
Proof.
  rewrite cited_total. split.
  - intros H. destruct (cited_classes ids ctx) as [|k ks] eqn:E;
      [simpl in H; lia|].
    assert (Hin : In k (cited_classes ids ctx)) by (rewrite E; left; auto).
    apply cited_classes_In in Hin. destruct Hin as (cid & it & H1 & H2 & _).
    eauto.
  - intros (cid & it & H1 & H2).
    assert (Hin : In (item_kg_class it) (cited_classes ids ctx))
      by (apply cited_classes_In; eauto).
    destruct (cited_classes ids ctx); [contradiction | simpl; lia].
Qed.

Lemma sum_pos a b : 0 <= a -> 0 <= b -> (0 < a + b <-> 0 < a \/ 0 < b).
Proof. lia. Qed.

Section Extracted.

Variable _extract_cited_content_ids : str -> list item -> list str.

Lemma normative_cited_retrieved answer ctx :
  normative_item_cited _extract_cited_content_ids answer ctx ->
  normative_item_retrieved ctx.
Proof.
  intros (cid & it & _ & F & C). exists it. split; [|exact C].
  apply (find_some _ _ F).
Qed.

(** X11: the normative-coverage metric is 1.0 exactly when a cited id
    resolves to a retrieved item of class A or B, 0.0 exactly when no item
    of class A or B was retrieved, and 0.5 in between. *)
Theorem normative_coverage_spec answer ctx :
  let score := kg_normative_coverage _extract_cited_content_ids answer ctx in
  (score = 1.0%Q <->
   normative_item_cited _extract_cited_content_ids answer ctx) /\
  (score = 0.0%Q <-> ~ normative_item_retrieved ctx) /\
  (score = 0.5%Q <->
   normative_item_retrieved ctx /\
   ~ normative_item_cited _extract_cited_content_ids answer ctx).
Proof.
  cbv zeta. unfold kg_normative_coverage.
  set (ids := _extract_cited_content_ids answer ctx).
  assert (Hc : normative_item_cited _extract_cited_content_ids answer ctx <->
               0 < counter_get (cited_kg_classes ids ctx) (lit "A") 0 +
                   counter_get (cited_kg_classes ids ctx) (lit "B") 0).
  { rewrite sum_pos by (rewrite cited_count; apply occurrences_nonneg).
    rewrite !cited_class_pos. unfold normative_item_cited. fold ids.
    split.
    - intros (cid & it & H1 & H2 & [H3 | H3]); [left | right]; eauto.
    - intros [(cid & it & H1 & H2 & H3) | (cid & it & H1 & H2 & H3)];
        exists cid, it; auto. }
  assert (Hr : normative_item_retrieved ctx <->
               0 < counter_get (retrieved_kg_classes ctx) (lit "A") 0 +
                   counter_get (retrieved_kg_classes ctx) (lit "B") 0).
  { rewrite sum_pos by (rewrite retrieved_count; apply occurrences_nonneg).
    rewrite !retrieved_class_pos. unfold normative_item_retrieved.
    split.
    - intros (it & H1 & [H3 | H3]); [left | right]; eauto.
    - intros [(it & H1 & H3) | (it & H1 & H3)]; exists it; auto. }
  assert (Ht : normative_item_cited _extract_cited_content_ids answer ctx ->
               0 < counter_total (cited_kg_classes ids ctx)).
  { intros (cid & it & H1 & H2 & _). apply cited_total_pos. eauto. }
  pose proof (@normative_cited_retrieved answer ctx) as Hcr.
  set (NC := normative_item_cited _extract_cited_content_ids answer ctx) in *.
  set (NR := normative_item_retrieved ctx) in *.
  match goal with
  | |- (?s = _ <-> _) /\ _ =>
      assert (D : (NC /\ s = 1.0%Q) \/ (~ NC /\ NR /\ s = 0.5%Q) \/
                  (~ NC /\ ~ NR /\ s = 0.0%Q))
  end.
  { assert (Hn : ~ NC -> (~ NC /\ NR /\
                (if 0 <? counter_get (retrieved_kg_classes ctx) (lit "A") 0 +
                         counter_get (retrieved_kg_classes ctx) (lit "B") 0
                 then 0.5%Q else 0.0%Q) = 0.5%Q) \/
               (~ NC /\ ~ NR /\
                (if 0 <? counter_get (retrieved_kg_classes ctx) (lit "A") 0 +
                         counter_get (retrieved_kg_classes ctx) (lit "B") 0
                 then 0.5%Q else 0.0%Q) = 0.0%Q)).
    { intros N.
      destruct (Z.ltb_spec 0
        (counter_get (retrieved_kg_classes ctx) (lit "A") 0 +
         counter_get (retrieved_kg_classes ctx) (lit "B") 0)) as [Pr | Nr].
      - left. repeat split; [exact N | apply Hr, Pr].
      - right. repeat split; [exact N|]. intros R. apply Hr in R. lia. }
    destruct (Z.ltb_spec 0 (counter_total (cited_kg_classes ids ctx)))
      as [Pt | Nt].
    - destruct (Z.ltb_spec 0
        (counter_get (cited_kg_classes ids ctx) (lit "A") 0 +
         counter_get (cited_kg_classes ids ctx) (lit "B") 0)) as [Pc | Nc].
      + left. split; [apply Hc, Pc | reflexivity].
      + right. cbn [is_true]. apply Hn. intros C. apply Hc in C. lia.
    - right. cbn [is_true]. apply Hn. intros C. apply Ht in C. lia. }
  destruct D as [(C & ->) | [(C & R & ->) | (C & R & ->)]].
  - specialize (Hcr C).
    repeat split; try discriminate; try tauto.
  - repeat split; try discriminate; try tauto.
  - repeat split; try discriminate; try tauto.
Qed.

End Extracted.

Section Cue.

Variable re_search_ignorecase : str -> str -> bool.
Variable _extract_cited_content_ids : str -> list item -> list str.

(** X12: the conditional-risk metric takes three values: 0.0 exactly when
    a class-B item is cited and the answer shows no conditional language;
    0.5 exactly when no class-B item is cited, one was retrieved, some cited
    id resolves to a retrieved item and the answer shows no conditional
    language; 1.0 otherwise. *)
Theorem conditional_risk_levels answer ctx :
  let risk :=
    kg_conditional_risk re_search_ignorecase _extract_cited_content_ids
                        answer ctx in
  let cue := has_conditional_language re_search_ignorecase answer in
  let cited := b_item_cited _extract_cited_content_ids answer ctx in
  let mapped := some_item_cited _extract_cited_content_ids answer ctx in
  (risk = 0.0%Q <-> cited /\ cue = false) /\
  (risk = 0.5%Q <->
   ~ cited /\ b_item_retrieved ctx /\ mapped /\ cue = false) /\
  (risk = 1.0%Q <->
   cue = true \/ (~ cited /\ (~ b_item_retrieved ctx \/ ~ mapped))).
Proof.
  cbv zeta. unfold kg_conditional_risk.
  set (ids := _extract_cited_content_ids answer ctx).
  set (cue := has_conditional_language re_search_ignorecase answer).
  assert (Hc : b_item_cited _extract_cited_content_ids answer ctx <->
               0 < counter_get (cited_kg_classes ids ctx) (lit "B") 0).
  { rewrite cited_class_pos. reflexivity. }
  assert (Hr : b_item_retrieved ctx <->
               0 < counter_get (retrieved_kg_classes ctx) (lit "B") 0).
  { rewrite retrieved_class_pos. reflexivity. }
  assert (Hm : some_item_cited _extract_cited_content_ids answer ctx <->
               0 < counter_total (cited_kg_classes ids ctx)).
  { rewrite cited_total_pos. reflexivity. }
  set (C := b_item_cited _extract_cited_content_ids answer ctx) in *.
  set (R := b_item_retrieved ctx) in *.
  set (M := some_item_cited _extract_cited_content_ids answer ctx) in *.
  destruct (Z.ltb_spec 0 (counter_get (cited_kg_classes ids ctx) (lit "B") 0))
    as [Pc | Nc].
  - assert (HC : C) by (apply Hc, Pc).
    destruct cue; repeat split; intros; try discriminate;
      intuition congruence.
  - assert (HC : ~ C) by (intros X; apply Hc in X; lia).
    destruct (Z.ltb_spec 0
                (counter_get (retrieved_kg_classes ctx) (lit "B") 0))
      as [Pr | Nr];
      [assert (HR : R) by (apply Hr, Pr)
      |assert (HR : ~ R) by (intros X; apply Hr in X; lia)];
      (destruct (Z.ltb_spec 0 (counter_total (cited_kg_classes ids ctx)))
         as [Pm | Nm];
       [assert (HM : M) by (apply Hm, Pm)
       |assert (HM : ~ M) by (intros X; apply Hm in X; lia)]);
      cbn [andb]; destruct cue;
      repeat split; intros; try discriminate; intuition congruence.
Qed.

End Cue.

(** X13: the metrics read the cited ids as a set: two extractors whose
    results differ only in order give the same conditional risk and the same
    normative coverage. *)
Theorem kg_metrics_order_independent
    (re_search_ignorecase : str -> str -> bool)
    (extract extract' : str -> list item -> list str) answer ctx :
  Permutation (extract answer ctx) (extract' answer ctx) ->
  kg_conditional_risk re_search_ignorecase extract answer ctx =
  kg_conditional_risk re_search_ignorecase extract' answer ctx /\
  kg_normative_coverage extract answer ctx =
  kg_normative_coverage extract' answer ctx.
Proof.
  intros P.
  pose proof (cited_classes_perm ctx P) as Pc.
  unfold kg_conditional_risk, kg_normative_coverage.
  rewrite !cited_total, !cited_count.
  rewrite (Permutation_length Pc).
  rewrite !(occurrences_perm _ Pc). split; reflexivity.
Qed.

Lemma retrieved_content_types_fold ctx : forall d,
  fold_left (fun d c => counter_incr d (chunk_content_type c)) ctx d =
  fold_left counter_incr (map chunk_content_type ctx) d.
Proof. induction ctx as [|c l IH]; intros d; simpl; auto. Qed.

Lemma content_type_pos ctx t :
  0 < counter_get (retrieved_content_types ctx) t 0 <-> type_retrieved t ctx.
Proof.
  unfold retrieved_content_types, type_retrieved.
  rewrite retrieved_content_types_fold, counter_get_counts. simpl counter_get.
  rewrite Z.add_0_l, occurrences_In, in_map_iff.
  split; intros (c & H1 & H2); exists c; auto.
Qed.

(** X14: the multimodal-starvation metric is 1.0 whenever a structured
    table and a visual content are both retrieved; it is 0.0 exactly when a
    golden flag is set and no chunk of its content type was retrieved; and
    the softer 0.5 is given only when neither golden flag is set. *)
Theorem multimodal_starvation_spec
    (re_findall : str -> str -> list str) answer ctx
    (golden_has_table golden_has_diagram : option bool) :
  let score :=
    kg_multimodal_starvation re_findall answer ctx
                             golden_has_table golden_has_diagram in
  let table := type_retrieved (lit "structured_table") ctx in
  let visual := type_retrieved (lit "visual_content") ctx in
  (table -> visual -> score = 1.0%Q) /\
  (score = 0.0%Q <->
   (is_true golden_has_table = true /\ ~ table) \/
   (is_true golden_has_diagram = true /\ ~ visual)) /\
  (score = 0.5%Q ->
   is_true golden_has_table = false /\ is_true golden_has_diagram = false).
Proof.
  cbv zeta. unfold kg_multimodal_starvation.
  pose proof (content_type_pos ctx (lit "structured_table")) as Ht.
  pose proof (content_type_pos ctx (lit "visual_content")) as Hv.
  set (T := type_retrieved (lit "structured_table") ctx) in *.
  set (V := type_retrieved (lit "visual_content") ctx) in *.
  destruct (Z.ltb_spec 0
    (counter_get (retrieved_content_types ctx) (lit "structured_table") 0))
    as [Pt | Nt];
    [assert (HT : T) by (apply Ht, Pt)
    |assert (HT : ~ T) by (intros X; apply Ht in X; lia)];
    (destruct (Z.ltb_spec 0
       (counter_get (retrieved_content_types ctx) (lit "visual_content") 0))
       as [Pv | Nv];
     [assert (HV : V) by (apply Hv, Pv)
     |assert (HV : ~ V) by (intros X; apply Hv in X; lia)]);
    destruct (is_true golden_has_table), (is_true golden_has_diagram);
    cbn [andb orb negb];
    try destruct (nonempty (re_findall (lit "[Tt]able\s+\d+(?:\.\d+)?") answer));
    try destruct (nonempty (re_findall (lit "[Ff]igure\s+\d+(?:\.\d+)?") answer));
    cbn [andb orb negb];
    repeat split; intros; try discriminate; intuition congruence.
Qed.

End CoverageMore.

(** ** The engine: what the selector returns *)

Section EngineMore.

Context {H : Host}.

Lemma quota_steps_split h l :
  quota_steps h l =
  quota_guaranteed h l ++ firstn (quota_slots h l) (quota_pool h l).
Proof.
  unfold quota_steps, quota_slots, quota_guaranteed, quota_pool. cbv zeta.
  set (N := filter (in_bucket h NormativeText) l).
  set (U := filter (in_bucket h NonText) l).
  set (a := Nat.min MIN_NORMATIVE_TEXT (length N)).
  set (b := Nat.min MIN_UNKNOWN_NONTEXT (length U)).
  destruct (Z.ltb_spec 0 (Z.of_nat KG_FINAL_K -
                          Z.of_nat (length (firstn a N ++ firstn b U)))).
  - f_equal. f_equal. lia.
  - replace (KG_FINAL_K - length (firstn a N ++ firstn b U))%nat with 0%nat
      by lia.
    rewrite firstn_O, app_nil_r. reflexivity.
Qed.

Lemma quota_guaranteed_length h l :
  length (quota_guaranteed h l) =
  (Nat.min MIN_NORMATIVE_TEXT (count (in_bucket h NormativeText) l) +
   Nat.min MIN_UNKNOWN_NONTEXT (count (in_bucket h NonText) l))%nat.
Proof.
  unfold quota_guaranteed, count. cbv zeta.
  rewrite length_app, !length_firstn. lia.
Qed.

Lemma quota_pool_length h l :
  (length (quota_pool h l) + length (quota_guaranteed h l) =
   count (in_bucket h NormativeText) l + count (in_bucket h NonText) l +
   Nat.min MAX_NON_NORMATIVE_TEXT (count (in_bucket h NonNormativeText) l))%nat.
Proof.
  rewrite quota_guaranteed_length.
  unfold quota_pool, count. cbv zeta.
  rewrite (Permutation_length (sort_desc_perm _ _)).
  rewrite !length_app, !length_skipn, length_firstn. lia.
Qed.

(** X15: the selection fills every slot it can: its length is the smaller
    of [KG_FINAL_K] and the number of eligible items, which are all
    normative texts, all non-text items and at most
    [MAX_NON_NORMATIVE_TEXT] non-normative texts. *)
Theorem quota_selection_length h reranked_candidates :
  length (fst (_apply_quota_selection h reranked_candidates)) =
  Nat.min KG_FINAL_K
    (count (in_bucket h NormativeText) reranked_candidates +
     count (in_bucket h NonText) reranked_candidates +
     Nat.min MAX_NON_NORMATIVE_TEXT
       (count (in_bucket h NonNormativeText) reranked_candidates)).
Proof.
  rewrite apply_quota_selection_fst.
  rewrite (Permutation_length (quota_selection_perm h reranked_candidates)).
  rewrite quota_steps_split, length_app, length_firstn.
  pose proof (quota_pool_length h reranked_candidates) as Hp.
  pose proof (quota_guaranteed_length h reranked_candidates) as Hg.
  unfold quota_slots.
  unfold KG_FINAL_K, MIN_NORMATIVE_TEXT, MIN_UNKNOWN_NONTEXT in *. lia.
Qed.

Lemma bucket_of_nontext o :
  bucket_of o = NonText <-> CONTENT_TYPE o <> lit "text_chunk".
Proof.
  unfold bucket_of.
  destruct (str_eqb (CONTENT_TYPE o) (lit "text_chunk")) eqn:T.
  - apply str_eqb_eq in T.
    destruct (_ || _); [|destruct (str_eqb _ _)]; split; congruence.
  - apply str_eqb_neq in T. split; auto.
Qed.

(** X16: when the input holds at least [MIN_UNKNOWN_NONTEXT] non-text
    items (anything that is not a text chunk), so does the selection. *)
Theorem quota_min_nontext h reranked_candidates :
  MIN_UNKNOWN_NONTEXT <= count (in_bucket h NonText) reranked_candidates ->
  let final := fst (_apply_quota_selection h reranked_candidates) in
  let h' := snd (_apply_quota_selection h reranked_candidates) in
  MIN_UNKNOWN_NONTEXT <= count (in_bucket h' NonText) final /\
  (forall r, in_bucket h' NonText r = true <->
             CONTENT_TYPE (h' r) <> lit "text_chunk").
Proof.
  intros Hmin. cbv zeta.
  rewrite apply_quota_selection_fst, apply_quota_selection_snd.
  split.
  - unfold count at 1.
    rewrite (filter_ext _ _ (write_ranks_bucket h _ NonText)).
    fold (count (in_bucket h NonText)
                (quota_selection h reranked_candidates)).
    rewrite (count_perm _ (quota_selection_perm h reranked_candidates)).
    rewrite quota_steps_split. unfold quota_guaranteed. cbv zeta.
    rewrite !count_app.
    set (U := filter (in_bucket h NonText) reranked_candidates).
    set (b := Nat.min MIN_UNKNOWN_NONTEXT (length U)).
    assert (HU : count (in_bucket h NonText) U = length U)
      by (apply count_filter_all; auto).
    pose proof (count_split (in_bucket h NonText) b U) as Hs.
    pose proof (count_le_length (in_bucket h NonText) (skipn b U)) as Hk.
    rewrite length_skipn in Hk.
    unfold count in Hmin at 1. fold U in Hmin. subst b. lia.
  - intros r. rewrite <- bucket_of_nontext. unfold in_bucket.
    destruct (bucket_of _); split; congruence.
Qed.



Lemma quota_steps_In h l r : In r (quota_steps h l) -> In r l.
Proof.
  intros Hr. apply count_eqb_In. apply count_eqb_In in Hr.
  pose proof (quota_steps_count h (Nat.eqb r) l). lia.
Qed.

Lemma quota_selection_In h l r : In r (quota_selection h l) -> In r l.
Proof.
  intros Hr. apply quota_steps_In with (h := h).
  apply (Permutation_in _ (quota_selection_perm h l)), Hr.
Qed.


Lemma quota_selection_nodup h l : NoDup l -> NoDup (quota_selection h l).
Proof.
  intros Hnd. apply (NoDup_count_occ Nat.eq_dec). intros x.
  rewrite <- count_eqb_count_occ.
  apply (proj1 (NoDup_count_occ Nat.eq_dec _)) with (x := x) in Hnd.
  rewrite <- count_eqb_count_occ in Hnd.
  pose proof (quota_selection_count h (Nat.eqb x) l). lia.
Qed.

Lemma write_ranks_score h final_selection r :
  RERANK_SCORE (write_ranks h final_selection r) = RERANK_SCORE (h r).
Proof.
  destruct (write_ranks_frame h final_selection r) as [-> | [k ->]];
    reflexivity.
Qed.


Section OrderedSelection.

Variable ordered : float -> Prop.
Hypothesis flt_asym :
  forall a b, ordered a -> ordered b -> flt a b = true -> flt b a = false.
Hypothesis flt_negtrans :
  forall a b c, ordered a -> ordered b -> ordered c ->
    flt a b = false -> flt b c = false -> flt a c = false.

Lemma quota_selection_desc h l :
  Forall (fun r => ordered (RERANK_SCORE (h r))) l ->
  StronglySorted
    (fun a b => flt (RERANK_SCORE (h a)) (RERANK_SCORE (h b)) = false)
    (quota_selection h l).
Proof.
  intros Hord. rewrite quota_selection_steps.
  apply (@sort_desc_sorted H ordered flt_asym flt_negtrans ref
           (fun r => RERANK_SCORE (h r))).
  rewrite Forall_forall in *. intros r Hr.
  apply Hord, (quota_steps_In h), Hr.
Qed.


End OrderedSelection.

(** X17: the selection comes back in descending order of [RERANK_SCORE],
    for scores that [<] orders (floats that are not NaN). *)
Theorem quota_selection_sorted
    (ordered : float -> Prop)
    (flt_asym :
       forall a b, ordered a -> ordered b -> flt a b = true -> flt b a = false)
    (flt_negtrans :
       forall a b c, ordered a -> ordered b -> ordered c ->
         flt a b = false -> flt b c = false -> flt a c = false)
    h reranked_candidates :
  Forall (fun r => ordered (RERANK_SCORE (h r))) reranked_candidates ->
  let final := fst (_apply_quota_selection h reranked_candidates) in
  let h' := snd (_apply_quota_selection h reranked_candidates) in
  StronglySorted (fun a b => flt a b = false)
                 (map (fun r => RERANK_SCORE (h' r)) final).
Proof.
  intros Hord. cbv zeta.
  rewrite apply_quota_selection_fst, apply_quota_selection_snd.
  rewrite (map_ext _ (fun r => RERANK_SCORE (h r)))
    by (intros r; apply write_ranks_score).
  apply StronglySorted_map.
  apply (@quota_selection_desc ordered flt_asym flt_negtrans _ _ Hord).
Qed.


Lemma write_from_frame fs : forall k (h : heap) r,
  ~ In r fs ->
  fold_left
    (fun h p => heap_set h (snd p)
                  (set_RANK (h (snd p)) (Z.of_nat (fst p) + 1)))
    (enumerate_from k fs) h r = h r.
Proof.
  induction fs as [|x fs IH]; intros k h r Hr; simpl; [reflexivity|].
  rewrite IH by (intros Hin; apply Hr; right; exact Hin).
  unfold heap_set. destruct (Nat.eqb r x) eqn:E; [|reflexivity].
  apply Nat.eqb_eq in E. subst x. exfalso. apply Hr. left. reflexivity.
Qed.

Lemma write_from_rank fs : forall k (h : heap) i r,
  NoDup fs -> nth_error fs i = Some r ->
  RANK (fold_left
          (fun h p => heap_set h (snd p)
                        (set_RANK (h (snd p)) (Z.of_nat (fst p) + 1)))
          (enumerate_from k fs) h r) = (Z.of_nat (k + i) + 1)%Z.
Proof.
  induction fs as [|x fs IH]; intros k h i r Hnd Hi;
    [destruct i; discriminate|].
  inversion Hnd as [|x' fs' Hx Hnd']; subst.
  destruct i as [|i]; simpl in Hi.
  - inversion Hi; subst r. simpl. rewrite write_from_frame by exact Hx.
    unfold heap_set. rewrite Nat.eqb_refl. simpl. f_equal. f_equal. lia.
  - simpl. rewrite (IH (S k) _ i r Hnd' Hi). f_equal. f_equal. lia.
Qed.

(** X19: on pairwise distinct references the call leaves the object at
    position [i] of the selection with [RANK = i + 1]; objects that are not
    selected are untouched, and no object changes anything but its rank. *)
Theorem quota_selection_ranks h reranked_candidates :
  NoDup reranked_candidates ->
  let final := fst (_apply_quota_selection h reranked_candidates) in
  let h' := snd (_apply_quota_selection h reranked_candidates) in
  (forall i r, nth_error final i = Some r ->
               RANK (h' r) = (Z.of_nat i + 1)%Z) /\
  (forall r, ~ In r final -> h' r = h r) /\
  (forall r, unranked (h' r) = unranked (h r)).
Proof.
  intros Hnd. cbv zeta.
  rewrite apply_quota_selection_fst, apply_quota_selection_snd.
  split; [|split].
  - intros i r Hi. unfold write_ranks, enumerate.
    rewrite (write_from_rank 0 h i (quota_selection_nodup h Hnd) Hi).
    reflexivity.
  - intros r Hr. unfold write_ranks, enumerate.
    apply write_from_frame, Hr.
  - intros r.
    destruct (write_ranks_frame h (quota_selection h reranked_candidates) r)
      as [-> | [k ->]]; reflexivity.
Qed.

(** *** The two stages together *)

Lemma rerank_members candidates o :
  In o (_kg_rerank_candidates candidates) ->
  exists c, In c candidates /\ unranked o = unranked (reranked_obj c).
Proof.
  intros Hin. rewrite kg_rerank_unfold in Hin.
  apply (in_map unranked) in Hin. rewrite renumber_unranked in Hin.
  apply (Permutation_in _
           (Permutation_map unranked
              (sort_desc_perm RERANK_SCORE (map reranked_obj candidates))))
    in Hin.
  rewrite map_map in Hin. apply in_map_iff in Hin.
  destruct Hin as (c & E & Hc). exists c. auto.
Qed.

Lemma rerank_length candidates :
  length (_kg_rerank_candidates candidates) = length candidates.
Proof.
  rewrite <- (length_map unranked), kg_rerank_unfold, renumber_unranked.
  rewrite length_map, (Permutation_length (sort_desc_perm _ _)).
  apply length_map.
Qed.

Lemma map_by_index (A B : Type) (f : A -> B) (g : nat -> B) l : forall k,
  (forall i x, nth_error l i = Some x -> f x = g (k + i)%nat) ->
  map f l = map g (seq k (length l)).
Proof.
  induction l as [|x l IH]; intros k Hfg; simpl; [reflexivity|].
  f_equal.
  - rewrite (Hfg 0%nat x eq_refl). f_equal. lia.
  - apply IH. intros i y Hi. rewrite (Hfg (S i) y Hi). f_equal. lia.
Qed.

(** X20: with the flag set, the two stages together return objects ranked
    1..N, at most [KG_FINAL_K] and no more than there are candidates, each of
    them a scored candidate (up to its rank), and in descending score order
    for scores that [<] orders (floats that are not NaN); without the flag,
    or without candidates, the candidates come back untouched, and the
    shipped flag is off. *)
Theorem kg_stage_spec (c : candidate) (rest : list candidate) :
  (exists out,
     kg_stage true (c :: rest) = inr out /\
     map RANK out = map (fun k => (Z.of_nat k + 1)%Z) (seq 0 (length out)) /\
     length out <= Nat.min KG_FINAL_K (length (c :: rest)) /\
     (forall o, In o out ->
        exists c', In c' (c :: rest) /\
                   unranked o = unranked (reranked_obj c')) /\
     (forall ordered : float -> Prop,
        (forall a b, ordered a -> ordered b ->
           flt a b = true -> flt b a = false) ->
        (forall a b c, ordered a -> ordered b -> ordered c ->
           flt a b = false -> flt b c = false -> flt a c = false) ->
        Forall (fun c => ordered (RERANK_SCORE (reranked_obj c))) (c :: rest) ->
        StronglySorted (fun a b => flt a b = false) (map RERANK_SCORE out))) /\
  kg_stage false (c :: rest) = inl (c :: rest) /\
  (forall flag, kg_stage flag [] = inl []) /\
  USE_KG_RERANK = false.
Proof.
  split; [|split; [reflexivity | split; [intros []; reflexivity|reflexivity]]].
  unfold kg_stage.
  set (rr := _kg_rerank_candidates (c :: rest)).
  set (h := heap_of (reranked_obj c) rr).
  set (refs := seq 0 (length rr)).
  eexists. split; [reflexivity|].
  rewrite apply_quota_selection_fst, apply_quota_selection_snd.
  assert (Hnd : NoDup refs) by apply seq_NoDup.
  assert (Hobj : forall r, In r refs -> In (h r) rr).
  { intros r Hr. apply in_seq in Hr. apply nth_In. lia. }
  split; [|split; [|split]].
  - rewrite map_map, length_map.
    apply (map_by_index _ (fun k => (Z.of_nat k + 1)%Z) _ 0). intros i r Hi.
    unfold write_ranks, enumerate.
    rewrite (write_from_rank 0 h i (quota_selection_nodup h Hnd) Hi).
    reflexivity.
  - rewrite length_map.
    pose proof (quota_steps_length h refs) as H1.
    pose proof (quota_selection_count h (fun _ => true) refs) as H2.
    rewrite !count_true in H2.
    rewrite (Permutation_length (quota_selection_perm h refs)) in *.
    unfold refs in H2 at 2. rewrite length_seq in H2.
    unfold rr in H2. rewrite rerank_length in H2. lia.
  - intros o Ho. apply in_map_iff in Ho. destruct Ho as (r & <- & Hr).
    apply quota_selection_In in Hr.
    destruct (rerank_members _ _ (Hobj r Hr)) as (c' & Hc' & E).
    exists c'. split; [exact Hc'|]. rewrite <- E.
    destruct (write_ranks_frame h (quota_selection h refs) r)
      as [-> | [k ->]]; reflexivity.
  - intros ordered flt_asym flt_negtrans Hord.
    assert (Hh : Forall (fun r => ordered (RERANK_SCORE (h r))) refs).
    { apply Forall_forall. intros r Hr.
      destruct (rerank_members _ _ (Hobj r Hr)) as (c' & Hc' & E).
      rewrite Forall_forall in Hord. specialize (Hord c' Hc').
      change (RERANK_SCORE (h r)) with (RERANK_SCORE (unranked (h r))).
      rewrite E. exact Hord. }
    rewrite map_map.
    rewrite (map_ext _ (fun r => RERANK_SCORE (h r)))
      by (intros r; apply write_ranks_score).
    apply StronglySorted_map.
    apply (@quota_selection_desc ordered flt_asym flt_negtrans _ _ Hh).
Qed.

End EngineMore.

(** ** Query enrichment *)

Section Enrichment.

Lemma startswith_app a b : startswith (a ++ b) a = true.
Proof.
  induction a as [|c a IH]; simpl; [reflexivity|].
  rewrite chr_eqb_refl. exact IH.
Qed.

Lemma strip_split p l : exists t t', l = t ++ strip p l ++ t'.
Proof.
  unfold strip.
  destruct (lstrip_split p l) as (t & E & _).
  destruct (rstrip_split p (lstrip p l)) as (t' & E' & _).
  exists t, t'. rewrite <- E'. exact E.
Qed.

Lemma strip_length p l : length (strip p l) <= length l.
Proof.
  destruct (strip_split p l) as (t & t' & E).
  rewrite E at 2. rewrite !length_app. lia.
Qed.

Lemma strip_In p l c : In c (strip p l) -> In c l.
Proof.
  destruct (strip_split p l) as (t & t' & E). intros Hin.
  rewrite E. apply in_or_app. right. apply in_or_app. left. exact Hin.
Qed.

Lemma replace_chr_absent old new l :
  old <> new -> ~ In old (replace_chr old new l).
Proof.
  intros N Hin. unfold replace_chr in Hin. apply in_map_iff in Hin.
  destruct Hin as (c & E & _).
  destruct (chr_eqb c old) eqn:C; [congruence|].
  subst c. rewrite chr_eqb_refl in C. discriminate.
Qed.

Lemma replace_chr_length old new l :
  length (replace_chr old new l) = length l.
Proof. apply length_map. Qed.

(** The text appended after the query. *)
Lemma enrich_suffix raw_question chat_history :
  exists suffix,
    enrich_electrician_question raw_question chat_history =
    (query_prefix ++ strip is_space raw_question) ++ suffix /\
    (suffix = [] \/
     (2 <= length chat_history)%nat /\
     exists preview,
       suffix = lit " (Context: " ++ preview ++ lit "...)" /\
       (length preview <= 80)%nat /\ ~ In line_feed preview).
Proof.
  unfold enrich_electrician_question. cbv zeta.
  destruct (Nat.ltb_spec 1 (length chat_history)) as [L | L];
    [|exists []; rewrite app_nil_r; auto].
  destruct (existsb _ followup_patterns && _);
    [|exists []; rewrite app_nil_r; auto].
  destruct (30 <? _)%nat; [|exists []; rewrite app_nil_r; auto].
  eexists. split; [reflexivity|]. right. split; [lia|].
  eexists. split; [reflexivity|]. split.
  - etransitivity; [apply strip_length|].
    rewrite replace_chr_length, length_firstn. lia.
  - intros Hin. apply strip_In in Hin.
    apply replace_chr_absent in Hin; [exact Hin | discriminate].
Qed.

(** X22: the enriched query always begins with the fixed prefix and the
    trimmed question; with fewer than two chat messages it is nothing more;
    what is appended is at most 95 characters long and, like the whole
    result for a one-line question, holds no line feed. *)
Theorem enrich_question_spec raw_question chat_history :
  let enriched := enrich_electrician_question raw_question chat_history in
  let query := query_prefix ++ strip is_space raw_question in
  startswith enriched query = true /\
  ((length chat_history < 2)%nat -> enriched = query) /\
  (length enriched <= length query + 95)%nat /\
  (~ In line_feed raw_question -> ~ In line_feed enriched).
Proof.
  cbv zeta.
  destruct (enrich_suffix raw_question chat_history)
    as (suffix & -> & Hs).
  split; [apply startswith_app|].
  split; [|split].
  - intros L. destruct Hs as [-> | [L' _]]; [apply app_nil_r | lia].
  - rewrite length_app.
    destruct Hs as [-> | (_ & preview & -> & Hl & _)]; [simpl; lia|].
    rewrite !length_app. simpl length. lia.
  - intros Hq Hin.
    apply in_app_or in Hin. destruct Hin as [Hin | Hin].
    + apply in_app_or in Hin. destruct Hin as [Hin | Hin].
      * revert Hin. unfold query_prefix, lit, line_feed. simpl.
        intuition discriminate.
      * apply Hq, (strip_In _ _ _ Hin).
    + destruct Hs as [-> | (_ & preview & -> & _ & Hp)]; [contradiction|].
      apply in_app_or in Hin. destruct Hin as [Hin | Hin].
      * revert Hin. unfold lit, line_feed. simpl. intuition discriminate.
      * apply in_app_or in Hin. destruct Hin as [Hin | Hin];
          [exact (Hp Hin)|].
        revert Hin. unfold lit, line_feed. simpl. intuition discriminate.
Qed.

End Enrichment.

(** ** Citation extraction *)

Section Extraction.

Lemma nat_of_ascii_inj a b : nat_of_ascii a = nat_of_ascii b -> a = b.
Proof.
  intros E. rewrite <- (ascii_nat_embedding a), <- (ascii_nat_embedding b).
  rewrite E. reflexivity.
Qed.

Lemma str_ltb_irrefl a : str_ltb a a = false.
Proof.
  induction a as [|x a IH]; simpl; [reflexivity|].
  rewrite Nat.ltb_irrefl. exact IH.
Qed.

Lemma str_ltb_trans a : forall b c,
  str_ltb a b = true -> str_ltb b c = true -> str_ltb a c = true.
Proof.
  induction a as [|x a IH]; intros [|y b] [|z c]; simpl; try discriminate;
    try reflexivity.
  destruct (Nat.ltb_spec (nat_of_ascii x) (nat_of_ascii y)),
           (Nat.ltb_spec (nat_of_ascii y) (nat_of_ascii x)),
           (Nat.ltb_spec (nat_of_ascii y) (nat_of_ascii z)),
           (Nat.ltb_spec (nat_of_ascii z) (nat_of_ascii y)),
           (Nat.ltb_spec (nat_of_ascii x) (nat_of_ascii z)),
           (Nat.ltb_spec (nat_of_ascii z) (nat_of_ascii x));
    try discriminate; try reflexivity; try lia.
  apply IH.
Qed.

Lemma str_ltb_total a : forall b,
  str_ltb a b = false -> str_eqb a b = false -> str_ltb b a = true.
Proof.
  induction a as [|x a IH]; intros [|y b]; simpl; try discriminate;
    try reflexivity.
  destruct (Nat.ltb_spec (nat_of_ascii x) (nat_of_ascii y)),
           (Nat.ltb_spec (nat_of_ascii y) (nat_of_ascii x));
    try discriminate; try reflexivity; try lia.
  assert (E : x = y) by (apply nat_of_ascii_inj; lia). subst y.
  rewrite chr_eqb_refl. apply IH.
Qed.

Lemma insert_new_In x s c : In c (insert_new x s) <-> c = x \/ In c s.
Proof.
  induction s as [|y r IH]; simpl; [intuition|].
  destruct (str_ltb x y); [simpl; intuition|].
  destruct (str_eqb x y) eqn:E.
  - apply str_eqb_eq in E. subst y. simpl. intuition.
  - simpl. rewrite IH. intuition.
Qed.

Lemma sorted_set_In l c : In c (sorted_set l) <-> In c l.
Proof.
  induction l as [|x l IH]; simpl; [tauto|].
  rewrite insert_new_In, IH. intuition.
Qed.

Lemma insert_new_sorted x s :
  StronglySorted (fun a b => str_ltb a b = true) s ->
  StronglySorted (fun a b => str_ltb a b = true) (insert_new x s).
Proof.
  induction 1 as [|y r Hr IH Hy]; simpl; [repeat constructor|].
  destruct (str_ltb x y) eqn:L.
  - constructor; [constructor; assumption|].
    constructor; [exact L|].
    rewrite Forall_forall in *. intros z Hz.
    apply (str_ltb_trans _ _ _ L (Hy z Hz)).
  - destruct (str_eqb x y) eqn:E; [constructor; assumption|].
    constructor; [exact IH|].
    rewrite Forall_forall in *. intros z Hz.
    apply insert_new_In in Hz. destruct Hz as [-> | Hz]; [|apply Hy, Hz].
    apply str_ltb_total; assumption.
Qed.

Lemma sorted_set_sorted l :
  StronglySorted (fun a b => str_ltb a b = true) (sorted_set l).
Proof.
  induction l as [|x l IH]; simpl; [constructor|].
  apply insert_new_sorted, IH.
Qed.

Lemma sorted_NoDup s :
  StronglySorted (fun a b => str_ltb a b = true) s -> NoDup s.
Proof.
  induction 1 as [|y r Hr IH Hy]; constructor; [|exact IH].
  intros Hin. rewrite Forall_forall in Hy. specialize (Hy y Hin).
  rewrite str_ltb_irrefl in Hy. discriminate.
Qed.

Variable re_findall_ignorecase : str -> str -> list str.

(** X23: the extracted clause references are the strings captured by the
    three patterns, each once, in ascending order; grading them gives what
    grading the raw matches would give. *)
Theorem extract_clause_references_spec text expected_clause :
  let cited := _extract_clause_references re_findall_ignorecase text in
  StronglySorted (fun a b => str_ltb a b = true) cited /\
  NoDup cited /\
  (forall c, In c cited <->
     exists pattern, In pattern clause_reference_patterns /\
                     In c (re_findall_ignorecase pattern text)) /\
  citation_accuracy
    (citation_grading re_findall_ignorecase text expected_clause) =
  citation_accuracy
    (_grade_citation_accuracy (clause_matches re_findall_ignorecase text)
                              expected_clause) /\
  correct_clause_ref
    (citation_grading re_findall_ignorecase text expected_clause) =
  correct_clause_ref
    (_grade_citation_accuracy (clause_matches re_findall_ignorecase text)
                              expected_clause).
Proof.
  cbv zeta. unfold citation_grading, _extract_clause_references.
  split; [apply sorted_set_sorted|].
  split; [apply sorted_NoDup, sorted_set_sorted|].
  split.
  - intros c. rewrite sorted_set_In. unfold clause_matches.
    apply in_flat_map.
  - apply grade_citation_set_both. intros x. apply sorted_set_In.
Qed.

End Extraction.

(** * The further properties at concrete inputs *)

Section ExamplesMore.

Local Open Scope Q_scope.

Lemma normalize_clause_none_iff_witness :
  _normalize_clause (lit "see appendix") = None.
Proof.
  apply (proj2 (normalize_clause_none_iff (lit "see appendix"))).
  reflexivity.
Defined.

Lemma normalize_clause_digits_witness :
  digits_of (lit "1.4") = digits_of (lit "Clause 1..4.").
Proof.
  apply (@normalize_clause_digits (lit "Clause 1..4.") (lit "1.4")).
  reflexivity.
Defined.

Lemma normalize_clause_idempotent_witness :
  _normalize_clause (lit "1.4") = Some (lit "1.4").
Proof.
  apply (@normalize_clause_idempotent (lit "Clause 1..4.") (lit "1.4")).
  reflexivity.
Defined.

Lemma clause_match_score_extremes_witness :
  _compute_clause_match_score (lit "2.1") (lit "1.1") = 0.0.
Proof.
  apply (proj2 (proj2 (clause_match_score_extremes (lit "2.1") (lit "1.1")))).
  discriminate.
Defined.

Lemma clause_match_score_pass_witness :
  0.75 <= _compute_clause_match_score (lit "1.4.32") (lit "1.4.32.1").
Proof.
  apply (proj2 (clause_match_score_pass (lit "1.4.32") (lit "1.4.32.1"))).
  right. left. split; [reflexivity | vm_compute; lia].
Defined.

Lemma grade_correct_iff_witness :
  correct_clause_ref
    (_grade_citation_accuracy [lit "Clause 9"; lit "1.4.32"]
                              (Some (lit "2.1, 1.4.32.1"))) = true.
Proof.
  apply (proj2 (grade_correct_iff [lit "Clause 9"; lit "1.4.32"]
                                  (lit "2.1, 1.4.32.1"))).
  exists (lit "1.4.32"), (lit "1.4.32.1").
  split; [right; left; reflexivity|].
  split; [right; left; reflexivity | discriminate].
Defined.

Lemma grade_citation_set_witness :
  citation_accuracy
    (_grade_citation_accuracy [lit "1.4"; lit "9"; lit "1.4"]
                              (Some (lit "1.4.32"))) =
  citation_accuracy
    (_grade_citation_accuracy [lit "9"; lit "1.4"] (Some (lit "1.4.32"))).
Proof.
  apply (@grade_citation_set [lit "1.4"; lit "9"; lit "1.4"]
           [lit "9"; lit "1.4"] (Some (lit "1.4.32"))).
  intros x. simpl. tauto.
Defined.

Lemma normative_coverage_spec_witness :
  kg_normative_coverage (fun _ _ => [lit "TEXT_2"]) (lit "an answer")
                        example_retrieved = 1.0.
Proof.
  apply (proj2 (proj1 (@normative_coverage_spec
                         (fun _ _ => [lit "TEXT_2"]) (lit "an answer")
                         example_retrieved))).
  exists (lit "TEXT_2"),
         {| content_id := Some (lit "TEXT_2"); kg_class := Some (lit "A") |}.
  split; [left; reflexivity | split; [reflexivity | left; reflexivity]].
Defined.

Lemma conditional_risk_levels_witness :
  kg_conditional_risk (fun _ _ => false) (fun _ _ => [lit "TEXT_1"])
    (lit "fit an RCD") example_context = 0.0.
Proof.
  apply (proj2 (proj1 (@conditional_risk_levels (fun _ _ => false)
                         (fun _ _ => [lit "TEXT_1"]) (lit "fit an RCD")
                         example_context))).
  split; [|reflexivity].
  exists (lit "TEXT_1"),
         {| content_id := Some (lit "TEXT_1"); kg_class := Some (lit "B") |}.
  split; [left; reflexivity | split; reflexivity].
Defined.

Lemma kg_metrics_order_independent_witness :
  kg_normative_coverage (fun _ _ => [lit "TEXT_1"; lit "TEXT_2"])
                        (lit "an answer") example_retrieved =
  kg_normative_coverage (fun _ _ => [lit "TEXT_2"; lit "TEXT_1"])
                        (lit "an answer") example_retrieved.
Proof.
  apply (@kg_metrics_order_independent (fun _ _ => false)
           (fun _ _ => [lit "TEXT_1"; lit "TEXT_2"])
           (fun _ _ => [lit "TEXT_2"; lit "TEXT_1"])
           (lit "an answer") example_retrieved).
  apply perm_swap.
Defined.

Lemma multimodal_starvation_spec_witness :
  kg_multimodal_starvation (fun _ _ => []) (lit "see Figure 3.1")
                           example_chunks None (Some true) = 0.0.
Proof.
  apply (proj2 (proj1 (proj2 (@multimodal_starvation_spec (fun _ _ => [])
                         (lit "see Figure 3.1") example_chunks
                         None (Some true))))).
  right. split; [reflexivity|].
  intros (c & [<- | [<- | []]] & E); discriminate E.
Defined.

Lemma quota_min_nontext_witness :
  (MIN_UNKNOWN_NONTEXT <=
   count (in_bucket
            (snd (_apply_quota_selection (H := FloatHost) example_heap (seq 0 30)))
            NonText)
         (fst (_apply_quota_selection (H := FloatHost) example_heap (seq 0 30))))%nat.
Proof.
  apply (@quota_min_nontext FloatHost example_heap (seq 0 30)).
  vm_compute. lia.
Defined.

Lemma example_heap_ordered :
  Forall (fun r => PrimFloat.is_nan (RERANK_SCORE (example_heap r)) = false)
         (seq 0 30).
Proof. repeat constructor. Defined.

Lemma quota_selection_sorted_witness :
  StronglySorted (fun a b => PrimFloat.ltb a b = false)
    (map (fun r => RERANK_SCORE
                     (snd (_apply_quota_selection (H := FloatHost) example_heap
                             (seq 0 30)) r))
         (fst (_apply_quota_selection (H := FloatHost) example_heap (seq 0 30)))).
Proof.
  apply (@quota_selection_sorted FloatHost _ binary64_lt_asym
           binary64_lt_negtrans example_heap (seq 0 30) example_heap_ordered).
Defined.


Lemma quota_selection_ranks_witness :
  RANK (snd (_apply_quota_selection (H := FloatHost) example_heap (seq 0 30))
            29%nat) = 1%Z.
Proof.
  apply (proj1 (@quota_selection_ranks FloatHost example_heap (seq 0 30)
                  (seq_NoDup 30 0)) 0%nat 29%nat).
  reflexivity.
Defined.

Lemma rerank_binary64_sorted_witness :
  StronglySorted (fun a b => PrimFloat.ltb a b = false)
    (map RERANK_SCORE
         (_kg_rerank_candidates (H := FloatHost) rounding_candidates)).
Proof.
  apply (@rerank_binary64_sorted rounding_candidates).
  repeat constructor.
Defined.

Lemma kg_stage_spec_witness :
  exists out,
    kg_stage (H := FloatHost) true example_candidates = inr out /\
    map RANK out = map (fun k => (Z.of_nat k + 1)%Z) (seq 0 (length out)) /\
    StronglySorted (fun a b => PrimFloat.ltb a b = false)
                   (map RERANK_SCORE out).
Proof.
  destruct (@kg_stage_spec FloatHost
              (@Build_candidate FloatHost (lit "TEXT_a") (lit "text_chunk")
                                (binary64_of_literal 0.5) 1%Z (lit "A") [])
              [@Build_candidate FloatHost (lit "TEXT_c") (lit "text_chunk")
                                (binary64_of_literal 0.5) 2%Z (lit "C") []])
    as ((out & E & Hr & _ & _ & Hs) & _).
  exists out. split; [exact E | split; [exact Hr|]].
  apply (Hs (fun f => PrimFloat.is_nan f = false)
            binary64_lt_asym binary64_lt_negtrans).
  repeat constructor.
Defined.

Lemma enrich_question_spec_witness :
  enrich_electrician_question (lit "  What about bathrooms? ") [Some (lit "hi")]
  = query_prefix ++ lit "What about bathrooms?".
Proof.
  apply (enrich_question_spec (lit "  What about bathrooms? ")
                              [Some (lit "hi")]).
  simpl. lia.
Defined.

Lemma extract_clause_references_spec_witness :
  In (lit "1.4")
     (_extract_clause_references
        (fun pattern _ =>
           if str_eqb pattern (lit "AS3000\s+([\d.]+)")
           then [lit "1.4"] else [lit "2.1"; lit "1.4"])
        (lit "Clause 2.1, AS3000 1.4")).
Proof.
  apply (proj2 (proj1 (proj2 (proj2
    (@extract_clause_references_spec
       (fun pattern _ =>
          if str_eqb pattern (lit "AS3000\s+([\d.]+)")
          then [lit "1.4"] else [lit "2.1"; lit "1.4"])
       (lit "Clause 2.1, AS3000 1.4") None))) (lit "1.4"))).
  exists (lit "AS3000\s+([\d.]+)").
  split; [right; right; left; reflexivity | left; reflexivity].
Defined.

End ExamplesMore.
